(** * Corridor risk: the Lyapunov residual guard of [corridor_risk.hpp]

    A shallow embedding of [RiskCoord], [RiskState::from_raw] and
    [RiskState::next], and the properties of the specification settled
    against it.

    The source computes in C++ [double].  The embedding keeps that: a
    [double] is a binary64 [float] of the kernel, with IEEE 754
    round-to-nearest-even addition and multiplication, each operation
    rounded on its own (no fused multiply-add), and the IEEE comparisons,
    for which every comparison with a NaN is false.  General facts about
    these operations are proved on their specification [SpecFloat], to
    which [FloatAxioms] relates the primitive operations. *)

From Stdlib Require Import ZArith List Bool String Lia Permutation.
From Stdlib Require Import Floats.
Import ListNotations.

Set Warnings "-inexact-float".
Local Open Scope float_scope.

(** ** Errors

    The source throws [std::runtime_error] with four different messages;
    the specification names the four kinds. *)

Inductive error : Set :=
| EmptyCorridorError
| RiskValueOutOfRangeError
| NegativeWeightError
| ResidualIncreasedError.

Definition what (e : error) : string :=
  match e with
  | EmptyCorridorError => "No risk coordinates (no corridor -> no deployment)"
  | RiskValueOutOfRangeError => "r out of [0,1]"
  | NegativeWeightError => "negative weight"
  | ResidualIncreasedError => "Lyapunov residual increased (auto-derate/stop)"
  end.

(** A call either returns a value or throws. *)
Inductive result (A : Type) : Type :=
| Ok (a : A)
| Throw (e : error).
Arguments Ok {A} a.
Arguments Throw {A} e.

Definition bind {A B : Type} (x : result A) (k : A -> result B) : result B :=
  match x with
  | Ok a => k a
  | Throw e => Throw e
  end.

Notation "x <- c1 ;; c2" := (bind c1 (fun x => c2))
  (at level 61, c1 at next level, right associativity).

(** ** Data *)

Record RiskCoord : Set := { r : float; w : float }.

Record RiskState : Set := { coords : list RiskCoord; V : float }.

(** C++ [a > b] on doubles. *)
Definition gtb (a b : float) : bool := b <? a.
Infix ">?" := gtb (at level 70, no associativity) : float_scope.

(** The tolerance of [next], the literal [1e-9] rounded to binary64. *)
Definition eps : float := 1e-9.

(** ** [RiskState::from_raw] *)

(** The two tests of the loop body, as the source writes them. *)
Definition r_out_of_range (c : RiskCoord) : bool := (r c <? 0) || (r c >? 1).
Definition w_negative (c : RiskCoord) : bool := w c <? 0.

(** One iteration for the coordinate [c], on the local object [s]. *)
Definition loop_body (s : RiskState) (c : RiskCoord) : result RiskState :=
  if r_out_of_range c then Throw RiskValueOutOfRangeError
  else if w_negative c then Throw NegativeWeightError
  else Ok {| coords := coords s; V := V s + r c * w c |}.

(** [for (const auto& c : s.coords) ...], the local [s] passed along. *)
Fixpoint for_each (cs : list RiskCoord) (s : RiskState) : result RiskState :=
  match cs with
  | [] => Ok s
  | c :: cs' => s' <- loop_body s c ;; for_each cs' s'
  end.

Definition from_raw (rc : list RiskCoord) : result RiskState :=
  match rc with
  | [] => Throw EmptyCorridorError
  | _ :: _ => for_each rc {| coords := rc; V := 0 |}
  end.

(** ** [RiskState::next] *)

Definition next (this : RiskState) (rc_next : list RiskCoord) : result RiskState :=
  n <- from_raw rc_next ;;
  if V n >? V this + eps then Throw ResidualIncreasedError else Ok n.

(** ** The same two functions with the objects they touch made explicit

    A call [cur.next(rc_next)] works on two objects: the receiver [*this]
    and the object under construction (the local [s] of [from_raw], returned
    into the local [n] of [next]).  A [frame] holds both; a statement maps a
    frame to a frame and an outcome.  When an exception leaves the scope of
    the local, the local is destroyed. *)

Record frame : Set := { self : RiskState; cand : option RiskState }.

Definition stmt (A : Type) : Type := frame -> frame * result A.

Definition ret {A : Type} (a : A) : stmt A := fun fr => (fr, Ok a).

Definition throw {A : Type} (e : error) : stmt A :=
  fun fr => ({| self := self fr; cand := None |}, Throw e).

Definition seq {A B : Type} (m : stmt A) (k : A -> stmt B) : stmt B :=
  fun fr =>
    match m fr with
    | (fr', Ok a) => k a fr'
    | (fr', Throw e) => (fr', Throw e)
    end.

Definition get_self : stmt RiskState := fun fr => (fr, Ok (self fr)).

Definition set_cand (s : RiskState) : stmt unit :=
  fun fr => ({| self := self fr; cand := Some s |}, Ok tt).

Definition get_cand : stmt RiskState :=
  fun fr =>
    match cand fr with
    | Some s => (fr, Ok s)
    | None => (fr, Ok {| coords := []; V := 0 |})
    end.

Definition loop_body_st (c : RiskCoord) : stmt unit :=
  if r_out_of_range c then throw RiskValueOutOfRangeError
  else if w_negative c then throw NegativeWeightError
  else seq get_cand (fun s =>
       set_cand {| coords := coords s; V := V s + r c * w c |}).

Fixpoint for_each_st (cs : list RiskCoord) : stmt unit :=
  match cs with
  | [] => ret tt
  | c :: cs' => seq (loop_body_st c) (fun _ => for_each_st cs')
  end.

Definition from_raw_st (rc : list RiskCoord) : stmt RiskState :=
  match rc with
  | [] => throw EmptyCorridorError
  | _ :: _ =>
      seq (set_cand {| coords := rc; V := 0 |}) (fun _ =>
      seq (for_each_st rc) (fun _ => get_cand))
  end.

Definition next_st (rc_next : list RiskCoord) : stmt RiskState :=
  seq (from_raw_st rc_next) (fun n =>
  seq get_self (fun this =>
  if V n >? V this + eps then throw ResidualIncreasedError else ret n)).

(** A call on the receiver [cur], no candidate existing before the call. *)
Definition enter (cur : RiskState) : frame := {| self := cur; cand := None |}.

(** ** The words of the specification *)

(** The constraints on a coordinate: r in [0,1] and w >= 0. *)
Definition valid_coord (c : RiskCoord) : bool :=
  (0 <=? r c) && (r c <=? 1) && (0 <=? w c).

(** The sum of r_i * w_i: the partial sums S_0 = 0, S_(k+1) = S_k + r_k * w_k
    in double arithmetic, and the sum over all coordinates S_n. *)
Definition dflt : RiskCoord := {| r := 0; w := 0 |}.

Fixpoint partial_sum (rc : list RiskCoord) (k : nat) : float :=
  match k with
  | O => 0
  | S k' => partial_sum rc k' + r (nth k' rc dflt) * w (nth k' rc dflt)
  end.

Definition weighted_sum (rc : list RiskCoord) : float :=
  partial_sum rc (List.length rc).

(** Iterating the transition along a chain of coordinate sequences, each
    accepted state becoming the current one. *)
Fixpoint transitions (cur : RiskState) (chain : list (list RiskCoord))
  : result RiskState :=
  match chain with
  | [] => Ok cur
  | rc :: rest => n <- next cur rc ;; transitions n rest
  end.

(** A chain of sequences that pass validation and whose residuals do not
    increase beyond the tolerance, starting from the residual [v]. *)
Fixpoint non_increasing (v : float) (chain : list (list RiskCoord)) : Prop :=
  match chain with
  | [] => True
  | rc :: rest =>
      exists n, from_raw rc = Ok n /\
                (V n <=? v + eps) = true /\
                non_increasing (V n) rest
  end.

(** The states the public operations can produce. *)
Inductive reachable : RiskState -> Prop :=
| reach_from_raw rc s : from_raw rc = Ok s -> reachable s
| reach_next cur rc s : reachable cur -> next cur rc = Ok s -> reachable s.

(** A coordinate passes both tests of the loop body. *)
Definition passes (c : RiskCoord) : bool :=
  negb (r_out_of_range c) && negb (w_negative c).

(** The coordinate whose test fails first, in sequence order, and the error
    its failing test throws (the r test comes before the w test). *)
Definition first_failing (rc : list RiskCoord) : option RiskCoord :=
  find (fun c => negb (passes c)) rc.

Definition first_error (c : RiskCoord) : error :=
  if r_out_of_range c then RiskValueOutOfRangeError else NegativeWeightError.

(** The statement [s.V += c.r * c.w] on the value of [s.V]. *)
Definition accumulate (v : float) (c : RiskCoord) : float := v + r c * w c.

(** The constraints of the specification with a finite weight besides. *)
Definition bounded_coord (c : RiskCoord) : bool :=
  valid_coord c && (w c <? infinity).

(** ** Classes of binary64 values, on the IEEE specification *)

(** Not below zero: a NaN, a zero of either sign, or a positive value. *)
Definition SF_not_neg (x : spec_float) : bool :=
  match x with
  | S754_nan | S754_zero _ => true
  | S754_infinity s | S754_finite s _ _ => negb s
  end.

(** At least zero: a zero of either sign or a positive value, not a NaN. *)
Definition SF_nonneg (x : spec_float) : bool :=
  match x with
  | S754_nan => false
  | S754_zero _ => true
  | S754_infinity s | S754_finite s _ _ => negb s
  end.

Definition SF_finite (x : spec_float) : bool :=
  match x with
  | S754_zero _ | S754_finite _ _ _ => true
  | S754_infinity _ | S754_nan => false
  end.

Definition not_negative (x : float) : Prop := (x <? 0) = false.

(** ** Inputs used in the examples *)

Definition state_1 : RiskState :=
  {| coords := [ {| r := 0.5; w := 2 |} ]; V := 1 |}.

Definition coords_half : list RiskCoord := [ {| r := 0.5; w := 1 |} ].

Definition coords_up : list RiskCoord := [ {| r := 0.9; w := 2 |} ].

Definition two_coords : list RiskCoord :=
  [ {| r := 0.5; w := 2 |}; {| r := 0.25; w := 3 |} ].

Definition two_coords_swapped : list RiskCoord :=
  [ {| r := 0.25; w := 3 |}; {| r := 0.5; w := 2 |} ].

Definition chain_down : list (list RiskCoord) :=
  [ coords_half; coords_half; [ {| r := 0.25; w := 1 |} ]; [ {| r := 0; w := 7 |} ] ].

Definition coords_at_eps : list RiskCoord := [ {| r := 1; w := 1 + 1e-9 |} ].

Definition coords_past_eps : list RiskCoord := [ {| r := 1; w := 1 + 1e-8 |} ].

Definition state_big : RiskState :=
  {| coords := [ {| r := 1; w := 1e9 |} ]; V := 1e9 |}.

Definition coords_w_then_r : list RiskCoord :=
  [ {| r := 0.5; w := -1 |}; {| r := 1.5; w := 1 |} ].

Definition big_first : list RiskCoord :=
  [ {| r := 1; w := 0x1p53 |}; {| r := 1; w := 1 |}; {| r := 1; w := 1 |} ].

Definition big_last : list RiskCoord :=
  [ {| r := 1; w := 1 |}; {| r := 1; w := 1 |}; {| r := 1; w := 0x1p53 |} ].

Definition zero_times_inf : list RiskCoord := [ {| r := 0; w := infinity |} ].

Definition nan_coord : list RiskCoord := [ {| r := nan; w := 1 |} ].

(** ** Exact values and rounding, on the IEEE specification *)

(** The exact value m * 2^e of a finite binary64 number as an integer: the
    value scaled by 2^1074, the inverse of the smallest subnormal. *)
Definition scaled (m e : Z) : Z := (m * 2 ^ (e + 1074))%Z.

(** What a shift record holds after [mz] has been shifted right: the
    quotient of [mz] by [P], the round bit and the sticky bit. *)
Definition shr_inv (mz P : Z) (mrs : shr_record) : Prop :=
  (0 <= shr_m mrs)%Z /\
  exists t : Z,
    (2 * mz = 2 * shr_m mrs * P + (if shr_r mrs then P else 0) + t)%Z /\
    (0 <= t < P)%Z /\ (shr_s mrs = false -> t = 0%Z) /\
    (shr_s mrs = true -> t <> 0%Z).

(** [R] is the binary64 value nearest to the exact positive value [x]
    (scaled by 2^1074), ties to even, on the grid of step 2^E; it is
    +infinity when the exponent exceeds the largest one. *)
Definition rounds_to (x E : Z) (R : spec_float) : Prop :=
  exists (m : positive) (e : Z),
    R = (if Z.leb e (emax - prec) then S754_finite false m e
         else S754_infinity false) /\
    (E <= e <= E + 1)%Z /\
    (- 2 ^ (E + 1074) <= 2 * x - 2 * scaled (Zpos m) e <= 2 ^ (E + 1074))%Z /\
    (forall k : Z, (k * 2 ^ (E + 1074) <= x)%Z ->
                   (k * 2 ^ (E + 1074) <= scaled (Zpos m) e)%Z) /\
    (forall k : Z, (x <= k * 2 ^ (E + 1074))%Z ->
                   (scaled (Zpos m) e <= k * 2 ^ (E + 1074))%Z).

(** A positive finite value. *)
Definition SF_positive (x : spec_float) : bool :=
  match x with
  | S754_finite false _ _ => true
  | _ => false
  end.

(** ** Further notions about coordinates and chains *)

(** The coordinates the two tests of the loop let through: each of r and w
    is a NaN or lies in its documented range. *)
Definition accepted_coord (c : RiskCoord) : bool :=
  (is_nan (r c) || ((0 <=? r c) && (r c <=? 1))) &&
  (is_nan (w c) || (0 <=? w c)).

(** A coordinate with a NaN in it. *)
Definition has_nan (c : RiskCoord) : bool := is_nan (r c) || is_nan (w c).

(** A chain of sequences that pass validation and whose residuals are each
    at most the previous residual, starting from the residual [v]. *)
Fixpoint descending (v : float) (chain : list (list RiskCoord)) : Prop :=
  match chain with
  | [] => True
  | rc :: rest =>
      exists n, from_raw rc = Ok n /\
                (V n <=? v) = true /\
                descending (V n) rest
  end.

(** A coordinate of zero risk: r is zero and w is finite and >= 0. *)
Definition zero_risk (c : RiskCoord) : bool :=
  (r c =? 0) && (0 <=? w c) && (w c <? infinity).

(** A zero of either sign. *)
Definition SF_is_zero (x : spec_float) : bool :=
  match x with
  | S754_zero _ => true
  | _ => false
  end.

(** * Facts about binary64 arithmetic *)

(** Case analysis on two IEEE values, the sign of each made explicit. *)
Ltac sf_cases x y :=
  destruct x as [[]|[]| |[] ?mx ?ex], y as [[]|[]| |[] ?my ?ey]; simpl.

Section Rounding.
Variables prec emax : Z.

Lemma iter_pos_invariant {A : Type} (P : A -> Prop) (f : A -> A) :
  (forall x, P x -> P (f x)) -> forall n x, P x -> P (iter_pos f n x).
Proof.
  intros Hf. induction n as [n IH|n IH|]; intros x Hx; simpl; auto.
Qed.

Lemma shr_1_nonneg mrs : (0 <= shr_m mrs)%Z -> (0 <= shr_m (shr_1 mrs))%Z.
Proof.
  destruct mrs as [m rb sb]. destruct m as [|[p|p|]|[p|p|]]; simpl; lia.
Qed.

Lemma shr_nonneg mrs e n :
  (0 <= shr_m mrs)%Z -> (0 <= shr_m (fst (shr mrs e n)))%Z.
Proof.
  intros H. destruct n as [|p|p]; simpl; try assumption.
  apply (iter_pos_invariant (fun x => (0 <= shr_m x)%Z));
    [exact shr_1_nonneg | assumption].
Qed.

Lemma shr_fexp_nonneg m e l :
  (0 <= m)%Z -> (0 <= shr_m (fst (shr_fexp prec emax m e l)))%Z.
Proof.
  intros H. unfold shr_fexp. apply shr_nonneg.
  destruct l as [|[]]; simpl; assumption.
Qed.

Lemma round_nearest_even_nonneg m l :
  (0 <= m)%Z -> (0 <= round_nearest_even m l)%Z.
Proof.
  intros H. destruct l as [|[]]; simpl; try lia.
  destruct (Z.even m); lia.
Qed.

(** Rounding with the sign bit clear gives a zero, a positive value or,
    for a negative mantissa only, a NaN. *)
Lemma round_aux_not_neg m e l :
  SF_not_neg (binary_round_aux prec emax false m e l) = true.
Proof.
  unfold binary_round_aux.
  destruct (shr_fexp prec emax m e l) as [mrs' e'].
  destruct (shr_fexp prec emax _ e' loc_Exact) as [mrs'' e''].
  destruct (shr_m mrs''); [reflexivity| |reflexivity].
  destruct (Z.leb e'' (emax - prec)); reflexivity.
Qed.

Lemma round_aux_nonneg m e l :
  (0 <= m)%Z -> SF_nonneg (binary_round_aux prec emax false m e l) = true.
Proof.
  intros H. unfold binary_round_aux.
  pose proof (shr_fexp_nonneg m e l H) as H1.
  destruct (shr_fexp prec emax m e l) as [mrs' e']. simpl in H1.
  pose proof (shr_fexp_nonneg _ e' loc_Exact
                (round_nearest_even_nonneg (shr_m mrs')
                   (loc_of_shr_record mrs') H1)) as H2.
  destruct (shr_fexp prec emax _ e' loc_Exact) as [mrs'' e'']. simpl in H2.
  destruct (shr_m mrs''); [reflexivity| |lia].
  destruct (Z.leb e'' (emax - prec)); reflexivity.
Qed.

Lemma SFmul_not_neg x y :
  SF_not_neg x = true -> SF_not_neg y = true ->
  SF_not_neg (SFmul prec emax x y) = true.
Proof.
  sf_cases x y; intros Hx Hy; try reflexivity; try discriminate.
  apply round_aux_not_neg.
Qed.

Lemma SFadd_not_neg x y :
  SF_not_neg x = true -> SF_not_neg y = true ->
  SF_not_neg (SFadd prec emax x y) = true.
Proof.
  sf_cases x y; intros Hx Hy; try reflexivity; try discriminate.
  unfold binary_round. destruct (shl_align _ _ _) as [mz ez].
  apply round_aux_not_neg.
Qed.

Lemma SFmul_nonneg x y :
  SF_nonneg x = true -> SF_finite x = true ->
  SF_nonneg y = true -> SF_finite y = true ->
  SF_nonneg (SFmul prec emax x y) = true.
Proof.
  sf_cases x y; intros Hx Fx Hy Fy; try reflexivity; try discriminate.
  apply round_aux_nonneg. lia.
Qed.

Lemma SFadd_nonneg x y :
  SF_nonneg x = true -> SF_nonneg y = true ->
  SF_nonneg (SFadd prec emax x y) = true.
Proof.
  sf_cases x y; intros Hx Hy; try reflexivity; try discriminate.
  unfold binary_round. destruct (shl_align _ _ _) as [mz ez].
  apply round_aux_nonneg. lia.
Qed.

(** Adding to the accumulator that started at +0: the two orders of two
    addends agree, signed zeros included. *)
Lemma SFadd_zero_twice x y :
  SFadd prec emax (SFadd prec emax (S754_zero false) x) y =
  SFadd prec emax (SFadd prec emax (S754_zero false) y) x.
Proof.
  destruct x as [[]|[]| |sx mx ex], y as [[]|[]| |sy my ey];
    cbn -[binary_normalize Z.min Z.add]; try reflexivity.
  rewrite (Z.min_comm ey ex). f_equal. apply Z.add_comm.
Qed.

End Rounding.

Section Comparison.

Lemma SFcompare_antisym (x y : spec_float) :
  SFcompare y x = option_map CompOpp (SFcompare x y).
Proof.
  sf_cases x y; try reflexivity;
    rewrite (Z.compare_antisym ex ey); destruct (ex ?= ey)%Z; simpl;
    try reflexivity;
    pose proof (Pos.compare_cont_antisym mx my Eq) as H; simpl in H;
    rewrite <- H; destruct (Pos.compare_cont Eq mx my); reflexivity.
Qed.

Lemma SFltb_zero (x : spec_float) :
  SFltb x (S754_zero false) = negb (SF_not_neg x).
Proof. destruct x as [[]|[]| |[] m e]; reflexivity. Qed.

Lemma SFleb_zero (x : spec_float) : SFleb (S754_zero false) x = SF_nonneg x.
Proof. destruct x as [[]|[]| |[] m e]; reflexivity. Qed.

Lemma Prim2SF_zero : Prim2SF 0 = S754_zero false.
Proof. reflexivity. Qed.

Lemma Prim2SF_one : Prim2SF 1 = S754_finite false 4503599627370496 (-52).
Proof. reflexivity. Qed.

Lemma Prim2SF_infinity : Prim2SF infinity = S754_infinity false.
Proof. reflexivity. Qed.

Lemma SFleb_one_finite (x : spec_float) :
  SF_nonneg x = true -> SFleb x (Prim2SF 1) = true -> SF_finite x = true.
Proof.
  rewrite Prim2SF_one.
  destruct x as [[]|[]| |[] m e]; simpl; intros H H';
    try reflexivity; discriminate.
Qed.

Lemma SFltb_inf_finite (x : spec_float) :
  SF_nonneg x = true -> SFltb x (S754_infinity false) = true ->
  SF_finite x = true.
Proof.
  destruct x as [[]|[]| |[] m e]; simpl; intros H H';
    try reflexivity; discriminate.
Qed.

(** [x <= y] excludes [x > y]; the converse fails for a NaN. *)
Lemma leb_not_gtb (x y : float) : (x <=? y) = true -> (x >? y) = false.
Proof.
  unfold gtb. rewrite leb_spec, ltb_spec. unfold SFleb, SFltb.
  rewrite (SFcompare_antisym (Prim2SF x) (Prim2SF y)).
  destruct (SFcompare (Prim2SF x) (Prim2SF y)) as [[]|]; simpl; congruence.
Qed.

Lemma ltb_irrefl (x : float) : (x <? x) = false.
Proof.
  rewrite ltb_spec. unfold SFltb.
  pose proof (SFcompare_antisym (Prim2SF x) (Prim2SF x)) as H.
  destruct (SFcompare (Prim2SF x) (Prim2SF x)) as [[]|]; simpl in *; congruence.
Qed.

Lemma not_negative_spec (x : float) :
  not_negative x <-> SF_not_neg (Prim2SF x) = true.
Proof.
  unfold not_negative. rewrite ltb_spec, Prim2SF_zero, SFltb_zero.
  destruct (SF_not_neg (Prim2SF x)); simpl; split; congruence.
Qed.

Lemma leb_zero_spec (x : float) : (0 <=? x) = SF_nonneg (Prim2SF x).
Proof. rewrite leb_spec, Prim2SF_zero. apply SFleb_zero. Qed.

Lemma mul_not_negative (x y : float) :
  not_negative x -> not_negative y -> not_negative (x * y).
Proof. rewrite !not_negative_spec, mul_spec. apply SFmul_not_neg. Qed.

Lemma add_not_negative (x y : float) :
  not_negative x -> not_negative y -> not_negative (x + y).
Proof. rewrite !not_negative_spec, add_spec. apply SFadd_not_neg. Qed.

Lemma add_nonneg (x y : float) :
  (0 <=? x) = true -> (0 <=? y) = true -> (0 <=? x + y) = true.
Proof. rewrite !leb_zero_spec, add_spec. apply SFadd_nonneg. Qed.

Lemma add_zero_twice (x y : float) : 0 + x + y = 0 + y + x.
Proof.
  apply Prim2SF_inj. rewrite !add_spec, Prim2SF_zero. apply SFadd_zero_twice.
Qed.

End Comparison.

(** * The loop of [from_raw] *)

Lemma valid_coord_passes (c : RiskCoord) : valid_coord c = true -> passes c = true.
Proof.
  unfold valid_coord, passes, r_out_of_range, w_negative.
  intros H. apply andb_prop in H as [H Hw]. apply andb_prop in H as [H0 H1].
  apply leb_not_gtb in H0, H1, Hw. unfold gtb in H0, Hw.
  rewrite H0, H1, Hw. reflexivity.
Qed.

Lemma valid_passes (rc : list RiskCoord) :
  Forall (fun c => valid_coord c = true) rc ->
  Forall (fun c => passes c = true) rc.
Proof. apply Forall_impl. exact valid_coord_passes. Qed.

Lemma loop_body_passes (s : RiskState) (c : RiskCoord) :
  passes c = true ->
  loop_body s c = Ok {| coords := coords s; V := accumulate (V s) c |}.
Proof.
  unfold passes, loop_body. intros H. apply andb_prop in H as [Hr Hw].
  apply negb_true_iff in Hr, Hw. rewrite Hr, Hw. reflexivity.
Qed.

Lemma loop_body_fails (s : RiskState) (c : RiskCoord) :
  passes c = false -> loop_body s c = Throw (first_error c).
Proof.
  unfold passes, loop_body, first_error.
  destruct (r_out_of_range c); [reflexivity|].
  destruct (w_negative c); [reflexivity | discriminate].
Qed.

(** The loop stops at the first coordinate that fails a test and otherwise
    leaves the coordinates alone and accumulates the products into [V]. *)
Lemma for_each_check_order (cs : list RiskCoord) : forall s,
  for_each cs s =
    match first_failing cs with
    | Some c => Throw (first_error c)
    | None => Ok {| coords := coords s; V := fold_left accumulate cs (V s) |}
    end.
Proof.
  unfold first_failing.
  induction cs as [|a cs IH]; intros s; simpl.
  - destruct s; reflexivity.
  - destruct (passes a) eqn:Ea; simpl.
    + rewrite (loop_body_passes s a Ea). simpl. rewrite IH. reflexivity.
    + rewrite (loop_body_fails s a Ea). reflexivity.
Qed.

Lemma first_failing_none (cs : list RiskCoord) :
  first_failing cs = None <-> Forall (fun c => passes c = true) cs.
Proof.
  unfold first_failing. induction cs as [|a cs IH]; simpl.
  - split; [constructor | reflexivity].
  - destruct (passes a) eqn:Ea; simpl.
    + rewrite IH. split; [constructor; assumption|].
      intros H. inversion H; assumption.
    + split; [discriminate|]. intros H. inversion H; congruence.
Qed.

Lemma partial_sum_app_le (l l' : list RiskCoord) (k : nat) :
  (k <= List.length l)%nat -> partial_sum (l ++ l') k = partial_sum l k.
Proof.
  induction k as [|k IH]; intros Hk; simpl; [reflexivity|].
  rewrite IH by lia. rewrite app_nth1 by lia. reflexivity.
Qed.

(** What the loop accumulates from 0.0 is the weighted sum. *)
Lemma fold_left_weighted_sum (rc : list RiskCoord) :
  fold_left accumulate rc 0 = weighted_sum rc.
Proof.
  unfold weighted_sum.
  induction rc as [|c l IH] using rev_ind; [reflexivity|].
  rewrite fold_left_app, length_app, Nat.add_comm. simpl.
  rewrite partial_sum_app_le by lia. rewrite IH.
  rewrite app_nth2 by lia. rewrite Nat.sub_diag. reflexivity.
Qed.

Lemma from_raw_passes (rc : list RiskCoord) :
  rc <> [] -> Forall (fun c => passes c = true) rc ->
  from_raw rc = Ok {| coords := rc; V := weighted_sum rc |}.
Proof.
  intros Hne H. unfold from_raw. destruct rc as [|c cs]; [congruence|].
  rewrite for_each_check_order.
  rewrite (proj2 (first_failing_none (c :: cs)) H). cbn [coords V].
  rewrite fold_left_weighted_sum. reflexivity.
Qed.

Lemma from_raw_ok_inv (rc : list RiskCoord) (s : RiskState) :
  from_raw rc = Ok s ->
  rc <> [] /\ Forall (fun c => passes c = true) rc /\
  s = {| coords := rc; V := weighted_sum rc |}.
Proof.
  unfold from_raw. destruct rc as [|c cs]; [discriminate|].
  rewrite for_each_check_order.
  destruct (first_failing (c :: cs)) eqn:E; [discriminate|].
  cbn [coords V]. rewrite fold_left_weighted_sum. intros [= <-].
  repeat split; [discriminate | apply first_failing_none, E].
Qed.

Lemma next_unfold (this : RiskState) (rc : list RiskCoord) (n : RiskState) :
  from_raw rc = Ok n ->
  next this rc =
    if V n >? V this + eps then Throw ResidualIncreasedError else Ok n.
Proof. intros H. unfold next. rewrite H. reflexivity. Qed.

Lemma next_ok_inv (this : RiskState) (rc : list RiskCoord) (n : RiskState) :
  next this rc = Ok n ->
  from_raw rc = Ok n /\ (V n >? V this + eps) = false.
Proof.
  unfold next. destruct (from_raw rc) as [m|e]; simpl; [|discriminate].
  destruct (V m >? V this + eps) eqn:E; [discriminate|].
  intros [= <-]. split; [reflexivity | assumption].
Qed.

(** * The examples of the specification *)

Example construct_half_two : from_raw (coords state_1) = Ok state_1.
Proof. reflexivity. Qed.

Example construct_r_too_large :
  from_raw [ {| r := 1.5; w := 1 |} ] = Throw RiskValueOutOfRangeError.
Proof. reflexivity. Qed.

Example construct_negative_weight :
  from_raw [ {| r := 0.5; w := -1 |} ] = Throw NegativeWeightError.
Proof. reflexivity. Qed.

Example transition_down :
  next state_1 coords_half = Ok {| coords := coords_half; V := 0.5 |}.
Proof. reflexivity. Qed.

Example transition_up : next state_1 coords_up = Throw ResidualIncreasedError.
Proof. reflexivity. Qed.

(** A NaN coordinate passes both tests, every comparison with a NaN being
    false, and makes the residual a NaN. *)
Example construct_nan :
  from_raw nan_coord = Ok {| coords := nan_coord; V := nan |}.
Proof. reflexivity. Qed.

(** * Construction *)

(** C1.  For every non-empty sequence of coordinates in which every r lies in
    [0,1] and every w is >= 0, [from_raw] returns a state that holds the
    sequence and whose residual is the sum of r_i * w_i over all coordinates,
    the sum being taken in double arithmetic in sequence order. *)
Theorem from_raw_valid_residual (rc : list RiskCoord) :
  rc <> [] ->
  Forall (fun c => valid_coord c = true) rc ->
  from_raw rc = Ok {| coords := rc; V := weighted_sum rc |}.
Proof.
  intros Hne Hv. apply from_raw_passes; [assumption | apply valid_passes, Hv].
Qed.

(** C1 at the coordinates (0.5, 2), (0.25, 3): residual 1.75. *)
Lemma from_raw_valid_residual_witness :
  from_raw two_coords = Ok {| coords := two_coords; V := 1.75 |}.
Proof.
  change 1.75 with (weighted_sum two_coords).
  apply (from_raw_valid_residual two_coords).
  - discriminate.
  - repeat constructor.
Defined.

(** C6.  [from_raw] applied to the empty sequence throws the empty-corridor
    error, and so does [next] on the empty sequence whatever the current
    state is. *)
Theorem from_raw_empty :
  from_raw [] = Throw EmptyCorridorError /\
  (forall this : RiskState, next this [] = Throw EmptyCorridorError).
Proof. split; [reflexivity | intros this; reflexivity]. Qed.

(** C5 as stated fails: with a negative weight in the first coordinate and
    an r above 1 in the second, the error reported is the negative weight. *)
Lemma negative_weight_reported_first :
  coords_w_then_r <> [] /\
  Exists (fun c => r_out_of_range c = true) coords_w_then_r /\
  Exists (fun c => w_negative c = true) coords_w_then_r /\
  from_raw coords_w_then_r = Throw NegativeWeightError.
Proof.
  split; [discriminate|]. split; [right; left; reflexivity|].
  split; [left; reflexivity | reflexivity].
Qed.

(** C5, amended.  [from_raw] tests emptiness first and then walks the
    coordinates in sequence order, testing for each coordinate first its r
    and then its w; the first failing test decides the error.  So the error
    for a non-empty input is that of its first coordinate failing either test:
    the out-of-range error if that coordinate's r is out of range, the
    negative-weight error otherwise. *)
Theorem from_raw_check_order (rc : list RiskCoord) :
  from_raw rc =
    match rc with
    | [] => Throw EmptyCorridorError
    | _ :: _ =>
        match first_failing rc with
        | Some c =>
            Throw (if r_out_of_range c then RiskValueOutOfRangeError
                   else NegativeWeightError)
        | None => Ok {| coords := rc; V := weighted_sum rc |}
        end
    end.
Proof.
  unfold from_raw. destruct rc as [|a l]; [reflexivity|].
  rewrite for_each_check_order. cbn [coords V].
  rewrite fold_left_weighted_sum. reflexivity.
Qed.

(** * Transition *)

(** C2.  For a sequence that passes validation, [next] throws the
    residual-increased error exactly when the candidate's residual is
    greater than the current residual plus 1e-9, and otherwise returns the
    candidate. *)
Theorem next_fails_iff_residual_increased
  (this : RiskState) (rc : list RiskCoord) (n : RiskState) :
  from_raw rc = Ok n ->
  (next this rc = Throw ResidualIncreasedError <->
   (V n >? V this + eps) = true) /\
  ((V n >? V this + eps) = false -> next this rc = Ok n).
Proof.
  intros H. rewrite (next_unfold this rc n H).
  destruct (V n >? V this + eps); repeat split; congruence.
Qed.

(** C2 from residual 1: up to 1.8 is refused, down to 0.5 is accepted. *)
Lemma next_fails_iff_residual_increased_witness :
  from_raw coords_up = Ok {| coords := coords_up; V := 1.8 |} /\
  next state_1 coords_up = Throw ResidualIncreasedError /\
  next state_1 coords_half = Ok {| coords := coords_half; V := 0.5 |}.
Proof.
  assert (Hup : from_raw coords_up = Ok {| coords := coords_up; V := 1.8 |})
    by reflexivity.
  assert (Hhalf : from_raw coords_half
                  = Ok {| coords := coords_half; V := 0.5 |}) by reflexivity.
  split; [exact Hup|]. split.
  - apply (next_fails_iff_residual_increased state_1 coords_up _ Hup).
    reflexivity.
  - apply (next_fails_iff_residual_increased state_1 coords_half _ Hhalf).
    reflexivity.
Defined.

(** C9.  When [next] succeeds, the state it returns is the one [from_raw]
    builds from the new coordinates: the same sequence and the same
    residual.  The current state decides only whether the transition is
    accepted: from any other current state that accepts the same
    coordinates the same state is returned. *)
Theorem next_returns_from_raw
  (this : RiskState) (rc : list RiskCoord) (n : RiskState) :
  next this rc = Ok n ->
  from_raw rc = Ok n /\
  coords n = rc /\
  V n = weighted_sum rc /\
  (forall this' n', next this' rc = Ok n' -> n' = n).
Proof.
  intros H. apply next_ok_inv in H as [H _].
  split; [assumption|].
  pose proof (from_raw_ok_inv rc n H) as (_ & _ & E).
  split; [rewrite E; reflexivity|]. split; [rewrite E; reflexivity|].
  intros this' n' H'. apply next_ok_inv in H' as [H' _]. congruence.
Qed.

(** C9 at the transition from residual 1 to (0.5, 1). *)
Lemma next_returns_from_raw_witness :
  next state_1 coords_half = Ok {| coords := coords_half; V := 0.5 |} /\
  from_raw coords_half = Ok {| coords := coords_half; V := 0.5 |}.
Proof.
  assert (H : next state_1 coords_half
              = Ok {| coords := coords_half; V := 0.5 |}) by reflexivity.
  split; [exact H|].
  exact (proj1 (next_returns_from_raw state_1 coords_half _ H)).
Defined.

(** C3.  From every initial state, along every finite chain of sequences
    that pass validation and whose residuals are each at most the previous
    residual plus 1e-9, iterating [next] never fails, whatever the length
    of the chain. *)
Theorem transitions_never_fail (chain : list (list RiskCoord)) :
  forall cur : RiskState,
  non_increasing (V cur) chain ->
  exists s, transitions cur chain = Ok s.
Proof.
  induction chain as [|rc rest IH]; intros cur H; simpl.
  - exists cur. reflexivity.
  - destruct H as (n & Hn & Hle & Hrest).
    rewrite (next_unfold cur rc n Hn), (leb_not_gtb _ _ Hle). simpl.
    apply IH, Hrest.
Qed.

(** C3 along the residuals 1, 0.5, 0.5, 0.25, 0. *)
Lemma transitions_never_fail_witness :
  non_increasing (V state_1) chain_down /\
  exists s, transitions state_1 chain_down = Ok s.
Proof.
  assert (H : non_increasing (V state_1) chain_down).
  { simpl. repeat (eexists; split; [reflexivity|]; split; [reflexivity|]).
    exact I. }
  split; [exact H|].
  exact (transitions_never_fail chain_down state_1 H).
Defined.

(** * The tolerance boundary *)

(** C4 as stated fails: at the residual 1e9 the double sum 1e9 + 1e-8 is
    1e9 itself, so a candidate of residual 1e9 has the residual
    current + 1e-8 and is accepted. *)
Lemma tolerance_1e8_absorbed :
  from_raw (coords state_big) = Ok state_big /\
  V state_big = V state_big + 1e-8 /\
  next state_big (coords state_big) = Ok state_big.
Proof. repeat split. Qed.

(** C4, amended.  The tolerance is inclusive: a candidate whose residual
    equals the current residual plus 1e-9 is accepted.  A candidate whose
    residual equals the current residual plus 1e-8 is refused with the
    residual-increased error whenever, in double arithmetic, the current
    residual plus 1e-8 is greater than the current residual plus 1e-9. *)
Theorem tolerance_boundary
  (cur : RiskState) (rc : list RiskCoord) (n : RiskState) :
  from_raw rc = Ok n ->
  (V n = V cur + eps -> next cur rc = Ok n) /\
  (V n = V cur + 1e-8 ->
   (V cur + 1e-8 >? V cur + eps) = true ->
   next cur rc = Throw ResidualIncreasedError).
Proof.
  intros H. rewrite (next_unfold cur rc n H). split.
  - intros ->. unfold gtb. rewrite ltb_irrefl. reflexivity.
  - intros -> ->. reflexivity.
Qed.

(** C4 at the current residual 1: the candidate of residual 1 + 1e-9 is
    accepted, the one of residual 1 + 1e-8 refused. *)
Lemma tolerance_boundary_witness :
  next state_1 coords_at_eps = Ok {| coords := coords_at_eps; V := 1 + 1e-9 |} /\
  next state_1 coords_past_eps = Throw ResidualIncreasedError.
Proof.
  split.
  - apply (tolerance_boundary state_1 coords_at_eps); reflexivity.
  - apply (tolerance_boundary state_1 coords_past_eps
             {| coords := coords_past_eps; V := 1 + 1e-8 |}); reflexivity.
Defined.

(** * Order of the coordinates *)

(** C7 as stated fails: 2^53 + 1 + 1 is 2^53 in double arithmetic, each 1
    being rounded away, while 1 + 1 + 2^53 is 2^53 + 2. *)
Lemma residual_depends_on_order :
  big_first <> [] /\
  Forall (fun c => valid_coord c = true) big_first /\
  Permutation big_first big_last /\
  from_raw big_first = Ok {| coords := big_first; V := 9007199254740992 |} /\
  from_raw big_last = Ok {| coords := big_last; V := 9007199254740994 |} /\
  (9007199254740992 =? 9007199254740994) = false.
Proof.
  split; [discriminate|]. split; [repeat constructor|].
  split; [exact (Permutation_app_comm [ {| r := 1; w := 0x1p53 |} ]
                   [ {| r := 1; w := 1 |}; {| r := 1; w := 1 |} ])|].
  repeat split.
Qed.

(** The same with everyday values: 0.1 + 0.2 + 0.3 against 0.3 + 0.2 + 0.1. *)
Example residual_depends_on_order_tenths :
  weighted_sum [ {| r := 1; w := 0.1 |}; {| r := 1; w := 0.2 |};
                 {| r := 1; w := 0.3 |} ] = 0.6000000000000001 /\
  weighted_sum [ {| r := 1; w := 0.3 |}; {| r := 1; w := 0.2 |};
                 {| r := 1; w := 0.1 |} ] = 0.6.
Proof. split; reflexivity. Qed.

Lemma valid_permutation (rc rc' : list RiskCoord) :
  Permutation rc rc' ->
  Forall (fun c => valid_coord c = true) rc ->
  Forall (fun c => valid_coord c = true) rc'.
Proof.
  intros HP H. apply Forall_forall. intros c Hin.
  apply (proj1 (Forall_forall _ rc) H).
  apply Permutation_in with (l := rc'); [apply Permutation_sym|]; assumption.
Qed.

Lemma weighted_sum_short (rc rc' : list RiskCoord) :
  Permutation rc rc' -> (List.length rc <= 2)%nat ->
  weighted_sum rc' = weighted_sum rc.
Proof.
  intros HP Hlen. destruct rc as [|a [|b [|c l]]].
  - apply Permutation_nil in HP. subst. reflexivity.
  - apply Permutation_length_1_inv in HP. subst. reflexivity.
  - apply Permutation_length_2_inv in HP as [-> | ->]; [reflexivity|].
    unfold weighted_sum. simpl. apply add_zero_twice.
  - simpl in Hlen. lia.
Qed.

(** C7, amended.  Acceptance by [from_raw] does not depend on the order:
    every permutation of a valid non-empty sequence is accepted, and its
    residual is the sum in double arithmetic taken in the order of the
    permuted sequence.  For sequences of at most two coordinates that
    residual is the same as for the original order. *)
Theorem from_raw_permutation (rc rc' : list RiskCoord) :
  rc <> [] ->
  Forall (fun c => valid_coord c = true) rc ->
  Permutation rc rc' ->
  from_raw rc = Ok {| coords := rc; V := weighted_sum rc |} /\
  from_raw rc' = Ok {| coords := rc'; V := weighted_sum rc' |} /\
  ((List.length rc <= 2)%nat -> weighted_sum rc' = weighted_sum rc).
Proof.
  intros Hne Hv HP. split; [|split].
  - apply from_raw_passes; [assumption | apply valid_passes, Hv].
  - apply from_raw_passes.
    + intros ->. apply Permutation_sym, Permutation_nil in HP. contradiction.
    + apply valid_passes, (valid_permutation rc rc' HP Hv).
  - apply weighted_sum_short, HP.
Qed.

(** C7 at (0.5, 2), (0.25, 3) and its swap: residual 1.75 both ways. *)
Lemma from_raw_permutation_witness :
  from_raw two_coords_swapped
  = Ok {| coords := two_coords_swapped; V := 1.75 |} /\
  weighted_sum two_coords_swapped = weighted_sum two_coords.
Proof.
  assert (Hne : two_coords <> []) by discriminate.
  assert (Hv : Forall (fun c => valid_coord c = true) two_coords)
    by (repeat constructor).
  assert (HP : Permutation two_coords two_coords_swapped)
    by (apply perm_swap).
  destruct (from_raw_permutation two_coords two_coords_swapped Hne Hv HP)
    as (_ & H2 & H3).
  split; [exact H2 | apply H3; simpl; lia].
Defined.

(** * The receiver under a failing transition *)

Lemma for_each_st_for_each (cs : list RiskCoord) : forall cur s,
  for_each_st cs {| self := cur; cand := Some s |} =
    match for_each cs s with
    | Ok s' => ({| self := cur; cand := Some s' |}, Ok tt)
    | Throw e => (enter cur, Throw e)
    end.
Proof.
  induction cs as [|c cs IH]; intros cur s; simpl; [reflexivity|].
  unfold seq at 1, loop_body_st, loop_body.
  destruct (r_out_of_range c); [reflexivity|].
  destruct (w_negative c); [reflexivity|].
  simpl. apply IH.
Qed.

Lemma from_raw_st_from_raw (rc : list RiskCoord) (cur : RiskState) :
  from_raw_st rc (enter cur) =
    match from_raw rc with
    | Ok s => ({| self := cur; cand := Some s |}, Ok s)
    | Throw e => (enter cur, Throw e)
    end.
Proof.
  destruct rc as [|c cs]; [reflexivity|].
  unfold from_raw_st, from_raw, seq, set_cand, enter. cbn [self cand].
  rewrite for_each_st_for_each.
  destruct (for_each (c :: cs) _); reflexivity.
Qed.

(** The two embeddings of [next] agree. *)
Lemma next_st_next (rc : list RiskCoord) (cur : RiskState) :
  next_st rc (enter cur) =
    match next cur rc with
    | Ok n => ({| self := cur; cand := Some n |}, Ok n)
    | Throw e => (enter cur, Throw e)
    end.
Proof.
  unfold next_st, next, seq at 1. rewrite from_raw_st_from_raw.
  destruct (from_raw rc) as [n|e]; [|reflexivity].
  unfold seq, get_self. cbn [self bind].
  destruct (V n >? V cur + eps); reflexivity.
Qed.

(** C8.  When [next] fails, with a validation error or with the
    residual-increased error, the receiver is left as it was: the frame
    after the call holds the current state unchanged and no candidate. *)
Theorem failed_next_leaves_receiver
  (cur : RiskState) (rc : list RiskCoord) (fr : frame) (e : error) :
  next_st rc (enter cur) = (fr, Throw e) ->
  fr = enter cur /\ self fr = cur /\ cand fr = None /\ next cur rc = Throw e.
Proof.
  rewrite next_st_next.
  destruct (next cur rc) as [n|e']; [discriminate|].
  intros [= <- <-]. repeat split.
Qed.

(** C8 at the refused transition from residual 1 to residual 1.8. *)
Lemma failed_next_leaves_receiver_witness :
  next_st coords_up (enter state_1)
  = (enter state_1, Throw ResidualIncreasedError) /\
  next state_1 coords_up = Throw ResidualIncreasedError.
Proof.
  assert (H : next_st coords_up (enter state_1)
              = (enter state_1, Throw ResidualIncreasedError)) by reflexivity.
  split; [exact H|].
  apply (failed_next_leaves_receiver state_1 coords_up _ _ H).
Defined.

(** * Sign of the residual *)

(** C10 as stated fails: r = 0 with w = +infinity satisfies both
    constraints, and 0 * infinity is a NaN, for which residual >= 0 is
    false. *)
Lemma residual_can_be_nan :
  Forall (fun c => valid_coord c = true) zero_times_inf /\
  from_raw zero_times_inf = Ok {| coords := zero_times_inf; V := nan |} /\
  (0 <=? nan) = false.
Proof. split; [repeat constructor | split; reflexivity]. Qed.

Lemma passes_product_not_negative (c : RiskCoord) :
  passes c = true -> not_negative (r c * w c).
Proof.
  unfold passes, r_out_of_range, w_negative. intros Hc.
  apply andb_prop in Hc as [Hr Hw]. apply negb_true_iff in Hr, Hw.
  apply orb_false_elim in Hr as [Hr _].
  apply mul_not_negative; assumption.
Qed.

Lemma fold_left_not_negative (cs : list RiskCoord) : forall v,
  Forall (fun c => passes c = true) cs ->
  not_negative v -> not_negative (fold_left accumulate cs v).
Proof.
  induction cs as [|c cs IH]; intros v H Hv; simpl; [assumption|].
  inversion H as [|? ? Hc Hcs]; subst. apply IH; [assumption|].
  apply add_not_negative; [assumption | apply passes_product_not_negative, Hc].
Qed.

Lemma bounded_coord_product (c : RiskCoord) :
  bounded_coord c = true -> (0 <=? r c * w c) = true.
Proof.
  unfold bounded_coord, valid_coord. intros H.
  apply andb_prop in H as [H Hf]. apply andb_prop in H as [H Hw].
  apply andb_prop in H as [H0 H1].
  rewrite leb_zero_spec in H0, Hw. rewrite leb_spec in H1.
  rewrite ltb_spec, Prim2SF_infinity in Hf.
  rewrite leb_zero_spec, mul_spec. apply SFmul_nonneg; try assumption.
  - apply SFleb_one_finite; assumption.
  - apply SFltb_inf_finite; assumption.
Qed.

Lemma fold_left_nonneg (cs : list RiskCoord) : forall v,
  Forall (fun c => bounded_coord c = true) cs ->
  (0 <=? v) = true -> (0 <=? fold_left accumulate cs v) = true.
Proof.
  induction cs as [|c cs IH]; intros v H Hv; simpl; [assumption|].
  inversion H as [|? ? Hc Hcs]; subst. apply IH; [assumption|].
  apply add_nonneg; [assumption | apply bounded_coord_product, Hc].
Qed.

(** A reachable state is what [from_raw] builds from its coordinates. *)
Lemma reachable_from_raw (s : RiskState) :
  reachable s -> from_raw (coords s) = Ok s.
Proof.
  intros H.
  assert (E : exists rc, from_raw rc = Ok s).
  { destruct H as [rc s H | cur rc s _ H].
    - exists rc. assumption.
    - exists rc. apply next_ok_inv in H as [H _]. assumption. }
  destruct E as [rc E].
  pose proof (from_raw_ok_inv rc s E) as (_ & _ & Hs).
  rewrite Hs at 1. cbn [coords]. assumption.
Qed.

(** C10, amended.  Every state produced by [from_raw] or by a successful
    [next], along any chain of these operations, has a residual that is
    never negative: residual < 0 is false.  The residual is >= 0 whenever
    every coordinate of the state has r in [0,1] and a finite w >= 0. *)
Theorem residual_never_negative (s : RiskState) :
  reachable s ->
  (V s <? 0) = false /\
  (Forall (fun c => bounded_coord c = true) (coords s) -> (0 <=? V s) = true).
Proof.
  intros H. apply reachable_from_raw in H.
  apply from_raw_ok_inv in H as (_ & Hp & Hs).
  rewrite Hs. cbn [coords V]. rewrite <- fold_left_weighted_sum. split.
  - apply fold_left_not_negative; [assumption | reflexivity].
  - intros Hb. apply fold_left_nonneg; [assumption | reflexivity].
Qed.

(** C10 at the state reached from residual 1 by the transition to
    (0.5, 1). *)
Lemma residual_never_negative_witness :
  reachable {| coords := coords_half; V := 0.5 |} /\
  (0.5 <? 0) = false /\ (0 <=? 0.5) = true.
Proof.
  assert (H : reachable {| coords := coords_half; V := 0.5 |}).
  { apply (reach_next state_1 coords_half); [|reflexivity].
    apply (reach_from_raw (coords state_1)). reflexivity. }
  split; [exact H|].
  destruct (residual_never_negative _ H) as [H1 H2].
  split; [exact H1 | apply H2; repeat constructor].
Defined.

(** * Rounding of binary64 addition

    The IEEE specification of addition, followed through its shifts and
    its rounding step: the result of adding two positive values is the
    exact sum rounded to nearest, and rounding is monotone. *)

Section RoundingSpec.
Local Open Scope Z_scope.

Lemma digits2_pos_bounds (p : positive) :
  2 ^ (Zpos (digits2_pos p) - 1) <= Zpos p < 2 ^ Zpos (digits2_pos p).
Proof.
  induction p as [p IH|p IH|]; simpl digits2_pos.
  - rewrite Pos2Z.inj_succ. replace (Z.succ (Zpos (digits2_pos p)) - 1)
      with (Z.succ (Zpos (digits2_pos p) - 1)) by lia.
    rewrite !Z.pow_succ_r by lia. lia.
  - rewrite Pos2Z.inj_succ. replace (Z.succ (Zpos (digits2_pos p)) - 1)
      with (Z.succ (Zpos (digits2_pos p) - 1)) by lia.
    rewrite !Z.pow_succ_r by lia. lia.
  - simpl. lia.
Qed.

Lemma digits2_pos_unique (p : positive) (k : Z) :
  2 ^ (k - 1) <= Zpos p < 2 ^ k -> Zpos (digits2_pos p) = k.
Proof.
  intros [Hl Hu]. pose proof (digits2_pos_bounds p) as [Hl' Hu'].
  assert (Hk : 0 < k).
  { destruct (Z.lt_ge_cases 0 k) as [|Hk]; [assumption|].
    exfalso. destruct (Z.eq_dec k 0) as [->|]; [simpl in Hu; lia|].
    rewrite Z.pow_neg_r in Hu by lia. lia. }
  destruct (Z.lt_trichotomy (Zpos (digits2_pos p)) k) as [H|[H|H]]; [|assumption|].
  - exfalso. assert (2 ^ Zpos (digits2_pos p) <= 2 ^ (k - 1))
      by (apply Z.pow_le_mono_r; lia). lia.
  - exfalso. assert (2 ^ k <= 2 ^ (Zpos (digits2_pos p) - 1))
      by (apply Z.pow_le_mono_r; lia). lia.
Qed.

Lemma digits2_pos_le (p : positive) (k : Z) :
  Zpos p < 2 ^ k -> Zpos (digits2_pos p) <= k.
Proof.
  intros Hu. pose proof (digits2_pos_bounds p) as [Hl' _].
  destruct (Z.le_gt_cases (Zpos (digits2_pos p)) k) as [|H]; [assumption|].
  exfalso. assert (2 ^ k <= 2 ^ (Zpos (digits2_pos p) - 1))
    by (apply Z.pow_le_mono_r; lia). lia.
Qed.

Lemma iter_xO_value (p d : positive) :
  Zpos (Pos.iter xO p d) = Zpos p * 2 ^ Zpos d.
Proof.
  induction d as [|d IH] using Pos.peano_ind.
  - simpl. lia.
  - rewrite Pos.iter_succ, Pos2Z.inj_succ, Z.pow_succ_r by lia.
    rewrite Pos2Z.inj_xO, IH. lia.
Qed.


Lemma shr_1_inv mz P mrs :
  0 < P -> shr_inv mz P mrs -> shr_inv mz (2 * P) (shr_1 mrs).
Proof.
  intros HP [Hm (t & E & Ht & Hs0 & Hs1)].
  destruct mrs as [m rb sb]. cbn [shr_m shr_r shr_s] in *.
  unfold shr_inv.
  destruct m as [|[p|p|]|p]; try lia; cbn [shr_1 shr_m shr_r shr_s];
    (split; [lia|]);
    exists ((if rb then P else 0) + t);
    destruct rb, sb; cbn [orb];
    try (specialize (Hs0 eq_refl)); try (specialize (Hs1 eq_refl));
    repeat split; try lia; try congruence.
Qed.

Lemma iter_shr_1_inv mz n : forall P mrs,
  0 < P -> shr_inv mz P mrs ->
  shr_inv mz (P * 2 ^ Zpos n) (iter_pos shr_1 n mrs).
Proof.
  induction n as [n IH|n IH|]; intros P mrs HP H; cbn [iter_pos].
  - replace (P * 2 ^ Z.pos n~1) with (2 * P * 2 ^ Zpos n * 2 ^ Zpos n).
    + assert (0 < 2 ^ Zpos n) by (apply Z.pow_pos_nonneg; lia).
      apply IH; [nia|]. apply IH; [lia|]. apply shr_1_inv; assumption.
    + rewrite Pos2Z.inj_xI.
      replace (2 * Zpos n + 1) with (Zpos n + Zpos n + 1) by lia.
      rewrite !Z.pow_add_r by lia. lia.
  - replace (P * 2 ^ Z.pos n~0) with (P * 2 ^ Zpos n * 2 ^ Zpos n).
    + assert (0 < 2 ^ Zpos n) by (apply Z.pow_pos_nonneg; lia).
      apply IH; [nia|]. apply IH; assumption.
    + change (Z.pos n~0) with (2 * Zpos n).
      rewrite <- (Z.add_diag (Zpos n)).
      rewrite Z.pow_add_r by lia. lia.
  - replace (P * 2 ^ 1) with (2 * P) by lia. apply shr_1_inv; assumption.
Qed.

Lemma shr_inv_init m : 0 <= m -> shr_inv m 1 (shr_record_of_loc m loc_Exact).
Proof.
  intros H. split; [assumption|]. exists 0. simpl. repeat split; try lia; discriminate.
Qed.

(** [shr] by [n >= 0] bits *)
Lemma shr_spec m e n :
  0 <= m -> 0 <= n ->
  shr_inv m (2 ^ n) (fst (shr (shr_record_of_loc m loc_Exact) e n)) /\
  snd (shr (shr_record_of_loc m loc_Exact) e n) = e + n.
Proof.
  intros Hm Hn. destruct n as [|p|p]; [| |lia].
  - simpl. split; [apply shr_inv_init; assumption | lia].
  - cbn [shr fst snd]. split; [|reflexivity].
    replace (2 ^ Zpos p) with (1 * 2 ^ Zpos p) by lia.
    apply iter_shr_1_inv; [lia | apply shr_inv_init; assumption].
Qed.

Lemma round_nearest_even_error mz P mrs :
  0 < P -> shr_inv mz P mrs ->
  let m2 := round_nearest_even (shr_m mrs) (loc_of_shr_record mrs) in
  shr_m mrs <= m2 <= shr_m mrs + 1 /\
  - P <= 2 * mz - 2 * m2 * P <= P.
Proof.
  intros HP [Hm (t & E & Ht & Hs0 & Hs1)].
  destruct mrs as [m rb sb]. cbn [shr_m shr_r shr_s] in *.
  destruct rb, sb; cbn [loc_of_shr_record round_nearest_even];
    try (specialize (Hs0 eq_refl)); try (specialize (Hs1 eq_refl));
    try destruct (Z.even m); split; nia.
Qed.


Lemma fexp64 e : fexp prec emax e = Z.max (e - 53) (-1074).
Proof. reflexivity. Qed.

Lemma Zdigits2_pos p : Zdigits2 (Zpos p) = Zpos (digits2_pos p).
Proof. reflexivity. Qed.

Lemma shr_quotient_bounds mz n dz mrs :
  0 <= n -> n < dz ->
  2 ^ (dz - 1) <= mz < 2 ^ dz ->
  shr_inv mz (2 ^ n) mrs ->
  2 ^ (dz - n - 1) <= shr_m mrs < 2 ^ (dz - n).
Proof.
  intros Hn Hd [Hl Hu] [Hq (t & E & Ht & _)].
  assert (HP : 0 < 2 ^ n) by (apply Z.pow_pos_nonneg; lia).
  assert (E1 : 2 ^ dz = 2 ^ (dz - n) * 2 ^ n)
    by (rewrite <- Z.pow_add_r by lia; f_equal; lia).
  assert (E2 : 2 ^ (dz - 1) = 2 ^ (dz - n - 1) * 2 ^ n)
    by (rewrite <- Z.pow_add_r by lia; f_equal; lia).
  assert (0 < 2 ^ (dz - n)) by (apply Z.pow_pos_nonneg; lia).
  assert (0 < 2 ^ (dz - n - 1)) by (apply Z.pow_pos_nonneg; lia).
  assert (Hh : 0 <= (if shr_r mrs then 2 ^ n else 0) <= 2 ^ n)
    by (destruct (shr_r mrs); lia).
  split; nia.
Qed.

Lemma shr_exact m e n mrs e' :
  0 < m -> (n = 0 \/ (n = 1 /\ exists k, m = 2 * k)) ->
  shr (shr_record_of_loc m loc_Exact) e n = (mrs, e') ->
  e' = e + n /\ m = shr_m mrs * 2 ^ n.
Proof.
  intros Hm Hn Hs.
  assert (Hn0 : 0 <= n) by (destruct Hn as [->|[-> _]]; lia).
  destruct (shr_spec m e n (Z.lt_le_incl _ _ Hm) Hn0) as [HI He].
  rewrite Hs in HI, He. cbn [fst snd] in HI, He. split; [assumption|].
  destruct HI as [Hq (t & E & Ht & _)].
  assert (Hh : shr_r mrs = true \/ shr_r mrs = false) by (destruct (shr_r mrs); auto).
  destruct Hn as [->|[-> [k ->]]].
  - change (2 ^ 0) with 1 in *. destruct Hh as [Hh|Hh]; rewrite Hh in E; lia.
  - change (2 ^ 1) with 2 in *. destruct Hh as [Hh|Hh]; rewrite Hh in E; lia.
Qed.


Lemma round_nearest_even_exact mz P mrs :
  0 < P -> shr_inv mz P mrs -> mz = shr_m mrs * P ->
  round_nearest_even (shr_m mrs) (loc_of_shr_record mrs) = shr_m mrs.
Proof.
  intros HP [Hm (t & E & Ht & Hs0 & Hs1)] Hx.
  destruct mrs as [m rb sb]. cbn [shr_m shr_r shr_s] in *.
  destruct rb; [lia|]. destruct sb; [|reflexivity].
  specialize (Hs1 eq_refl). lia.
Qed.

Lemma shr_inv_range mz P mrs :
  0 < P -> shr_inv mz P mrs -> shr_m mrs * P <= mz < (shr_m mrs + 1) * P.
Proof.
  intros HP [Hm (t & E & Ht & _)].
  assert (0 <= (if shr_r mrs then P else 0) <= P) by (destruct (shr_r mrs); lia).
  lia.
Qed.

Lemma round_monotone (x q m2 P : Z) :
  0 < P -> q * P <= x < (q + 1) * P -> q <= m2 <= q + 1 ->
  (x = q * P -> m2 = q) ->
  (forall k, k * P <= x -> k <= m2) /\ (forall k, x <= k * P -> m2 <= k).
Proof.
  intros HP [Hl Hu] Hm Hex. split; intros k Hk.
  - assert (k < q + 1); [|lia].
    apply (Z.mul_lt_mono_pos_r P); lia.
  - destruct (Z.eq_dec x (q * P)) as [Ex|Nx].
    + rewrite (Hex Ex). apply (Z.mul_le_mono_pos_r _ _ P); lia.
    + assert (q < k); [|lia]. apply (Z.mul_lt_mono_pos_r P); lia.
Qed.


Lemma binary_round_aux_spec (pz : positive) (ez1 : Z) :
  let dz := Zpos (digits2_pos pz) in
  let E := fexp prec emax (dz + ez1) in
  -1074 <= ez1 -> ez1 <= E ->
  rounds_to (scaled (Zpos pz) ez1) E
    (binary_round_aux prec emax false (Zpos pz) ez1 loc_Exact).
Proof.
  intros dz E H1 H2.
  unfold binary_round_aux, shr_fexp. rewrite Zdigits2_pos. fold dz. fold E.
  set (n := E - ez1).
  assert (Hn : 0 <= n) by lia.
  assert (HE : E = Z.max (dz + ez1 - 53) (-1074)) by (unfold E; apply fexp64).
  pose proof (digits2_pos_bounds pz) as Hdz. fold dz in Hdz.
  assert (Hnd : n < dz) by lia.
  destruct (shr_spec (Zpos pz) ez1 n (Pos2Z.is_nonneg pz) Hn) as [HI He].
  destruct (shr (shr_record_of_loc (Zpos pz) loc_Exact) ez1 n) as [mrs' e'].
  cbn [fst snd] in HI, He. subst e'.
  pose proof (shr_quotient_bounds _ _ _ _ Hn Hnd Hdz HI) as Hq.
  assert (HP : 0 < 2 ^ n) by (apply Z.pow_pos_nonneg; lia).
  destruct (round_nearest_even_error _ _ _ HP HI) as [Hm2 Herr].
  pose proof (round_nearest_even_exact _ _ _ HP HI) as Hex.
  pose proof (shr_inv_range _ _ _ HP HI) as Hrange.
  set (m2 := round_nearest_even (shr_m mrs') (loc_of_shr_record mrs')) in *.
  set (dq := dz - n) in *.
  assert (Hpq : 0 < 2 ^ (dq - 1)) by (apply Z.pow_pos_nonneg; lia).
  assert (Epq : 2 ^ dq = 2 * 2 ^ (dq - 1)).
  { rewrite <- Z.pow_succ_r by lia. f_equal. lia. }
  destruct (round_monotone _ _ m2 _ HP Hrange Hm2 Hex) as [Hlow Hupp].
  clearbody m2. clear Hex.
  destruct m2 as [|p2|p2]; try lia.
  rewrite Zdigits2_pos.
  set (d2 := Zpos (digits2_pos p2)).
  set (n2 := fexp prec emax (d2 + (ez1 + n)) - (ez1 + n)).
  assert (Hn2 : n2 = 0 \/ (n2 = 1 /\ exists k, Zpos p2 = 2 * k)).
  { destruct (Z.lt_ge_cases (Zpos p2) (2 ^ dq)) as [Hlt|Hge].
    - left. assert (Hd2 : d2 = dq) by (apply digits2_pos_unique; lia).
      unfold n2. rewrite fexp64, Hd2. lia.
    - assert (Ep2 : Zpos p2 = 2 ^ dq) by lia.
      assert (Hd2 : d2 = dq + 1).
      { apply digits2_pos_unique. replace (dq + 1 - 1) with dq by lia.
        rewrite Z.pow_add_r by lia. change (2 ^ 1) with 2. lia. }
      destruct (Z.lt_ge_cases (dz + ez1 - 53) (-1074)).
      + left. unfold n2. rewrite fexp64, Hd2. lia.
      + right. split; [unfold n2; rewrite fexp64, Hd2; lia|].
        exists (2 ^ (dq - 1)). lia. }
  destruct (shr (shr_record_of_loc (Zpos p2) loc_Exact) (ez1 + n) n2)
    as [mrs'' e''] eqn:Es2.
  destruct (shr_exact _ _ _ _ _ (Pos2Z.is_pos p2) Hn2 Es2) as [He2 Hv2].
  assert (HP2 : 0 < 2 ^ n2) by (destruct Hn2 as [->|[-> _]]; reflexivity).
  assert (Hpos : 0 < shr_m mrs'').
  { destruct (Z.lt_ge_cases 0 (shr_m mrs'')) as [|Hneg]; [assumption|].
    exfalso. assert (shr_m mrs'' * 2 ^ n2 <= 0)
      by (apply Z.mul_nonpos_nonneg; lia).
    lia. }
  destruct (shr_m mrs'') as [|m|m] eqn:Em; try lia.
  exists m, e''. split; [reflexivity|].
  split; [destruct Hn2 as [->|[-> _]]; lia|].
  assert (HS : 0 < 2 ^ (ez1 + 1074)) by (apply Z.pow_pos_nonneg; lia).
  assert (EE : 2 ^ (E + 1074) = 2 ^ n * 2 ^ (ez1 + 1074)).
  { rewrite <- Z.pow_add_r by lia. f_equal. lia. }
  assert (Es : scaled (Zpos m) e'' = Zpos p2 * (2 ^ n * 2 ^ (ez1 + 1074))).
  { unfold scaled. rewrite Hv2, <- EE, <- Z.mul_assoc, <- Z.pow_add_r
      by (destruct Hn2 as [->|[-> _]]; lia).
    f_equal. f_equal. lia. }
  rewrite Es, EE. unfold scaled.
  clear - Herr HS HP Hlow Hupp.
  set (S := 2 ^ (ez1 + 1074)) in *. set (P := 2 ^ n) in *.
  assert (HPS : 0 < P * S) by (apply Z.mul_pos_pos; assumption).
  split; [|split].
  - replace (2 * (Zpos pz * S) - 2 * (Zpos p2 * (P * S)))
      with ((2 * Zpos pz - 2 * Zpos p2 * P) * S) by ring.
    destruct Herr as [Hlo Hhi]. split.
    + replace (- (P * S)) with (- P * S) by ring.
      apply Z.mul_le_mono_nonneg_r; lia.
    + apply Z.mul_le_mono_nonneg_r; lia.
  - intros k Hk. apply Z.mul_le_mono_nonneg_r; [lia|]. apply Hlow.
    apply (Z.mul_le_mono_pos_r _ _ S); [assumption|].
    rewrite <- Z.mul_assoc. exact Hk.
  - intros k Hk. apply Z.mul_le_mono_nonneg_r; [lia|]. apply Hupp.
    apply (Z.mul_le_mono_pos_r _ _ S); [assumption|].
    rewrite <- Z.mul_assoc. exact Hk.
Qed.
Lemma shl_align_spec p e e' m e1 :
  shl_align p e e' = (m, e1) ->
  e1 = Z.min e e' /\ Zpos m = Zpos p * 2 ^ (e - e1).
Proof.
  unfold shl_align. destruct (e' - e) as [|d|d] eqn:Ed; intros [= <- <-].
  - split; [lia|]. rewrite Z.sub_diag. simpl. lia.
  - split; [lia|]. rewrite Z.sub_diag. simpl. lia.
  - split; [lia|]. rewrite iter_xO_value. f_equal. f_equal. lia.
Qed.
Lemma digits2_pos_shift p m k :
  0 <= k -> Zpos m = Zpos p * 2 ^ k ->
  Zpos (digits2_pos m) = Zpos (digits2_pos p) + k.
Proof.
  intros Hk E. apply digits2_pos_unique. rewrite E.
  pose proof (digits2_pos_bounds p) as [Hl Hu].
  assert (0 < 2 ^ k) by (apply Z.pow_pos_nonneg; lia).
  replace (Zpos (digits2_pos p) + k - 1) with (Zpos (digits2_pos p) - 1 + k) by lia.
  rewrite !Z.pow_add_r by lia. nia.
Qed.

Lemma binary_round_spec (p : positive) (ez : Z) :
  -1074 <= ez ->
  rounds_to (scaled (Zpos p) ez) (fexp prec emax (Zpos (digits2_pos p) + ez))
    (binary_round prec emax false p ez).
Proof.
  intros H1. unfold binary_round.
  set (E := fexp prec emax (Zpos (digits2_pos p) + ez)).
  assert (HE : E = Z.max (Zpos (digits2_pos p) + ez - 53) (-1074))
    by (unfold E; apply fexp64).
  destruct (shl_align p ez E) as [mz ez1] eqn:Ea.
  apply shl_align_spec in Ea as [E1 Ev].
  assert (Hd : Zpos (digits2_pos mz) = Zpos (digits2_pos p) + (ez - ez1))
    by (apply digits2_pos_shift; [lia | assumption]).
  assert (Hsum : Zpos (digits2_pos mz) + ez1 = Zpos (digits2_pos p) + ez) by lia.
  replace (scaled (Zpos p) ez) with (scaled (Zpos mz) ez1).
  - pose proof (binary_round_aux_spec mz ez1) as H. cbv zeta in H.
    rewrite Hsum in H. fold E in H. apply H; lia.
  - unfold scaled. rewrite Ev, <- Z.mul_assoc, <- Z.pow_add_r by lia.
    f_equal. f_equal. lia.
Qed.

(** Addition of two positive binary64 values: the exact sum [x] lies in the
    binade [2^(D-1), 2^D) and the result is [x] rounded on the grid of that
    binade. *)
Lemma SFadd_pos_spec (m1 : positive) (e1 : Z) (m2 : positive) (e2 : Z) :
  -1074 <= e1 -> -1074 <= e2 ->
  let x := scaled (Zpos m1) e1 + scaled (Zpos m2) e2 in
  exists D,
    2 ^ (D - 1 + 1074) <= x < 2 ^ (D + 1074) /\
    rounds_to x (Z.max (D - 53) (-1074))
      (SFadd prec emax (S754_finite false m1 e1) (S754_finite false m2 e2)).
Proof.
  intros H1 H2 x. cbn [SFadd cond_Zopp].
  set (ez := Z.min e1 e2).
  destruct (shl_align m1 e1 ez) as [a1 x1] eqn:Ea1.
  destruct (shl_align m2 e2 ez) as [a2 x2] eqn:Ea2.
  apply shl_align_spec in Ea1 as [Ex1 Ev1], Ea2 as [Ex2 Ev2].
  cbn [fst Z.add binary_normalize].
  assert (Hx1 : x1 = ez) by lia. assert (Hx2 : x2 = ez) by lia. subst x1 x2.
  assert (Hez : -1074 <= ez) by lia.
  assert (Hval : scaled (Zpos (a1 + a2)) ez = x).
  { unfold x, scaled. rewrite Pos2Z.inj_add, Ev1, Ev2, Z.mul_add_distr_r.
    rewrite <- !Z.mul_assoc, <- !Z.pow_add_r by lia.
    f_equal; f_equal; f_equal; lia. }
  exists (Zpos (digits2_pos (a1 + a2)) + ez). split.
  - rewrite <- Hval. unfold scaled.
    pose proof (digits2_pos_bounds (a1 + a2)) as [Hl Hu].
    assert (0 < 2 ^ (ez + 1074)) by (apply Z.pow_pos_nonneg; lia).
    replace (Zpos (digits2_pos (a1 + a2)) + ez - 1 + 1074)
      with (Zpos (digits2_pos (a1 + a2)) - 1 + (ez + 1074)) by lia.
    replace (Zpos (digits2_pos (a1 + a2)) + ez + 1074)
      with (Zpos (digits2_pos (a1 + a2)) + (ez + 1074)) by lia.
    rewrite (Z.pow_add_r 2 (Zpos (digits2_pos (a1 + a2)) - 1)) by lia.
    rewrite (Z.pow_add_r 2 (Zpos (digits2_pos (a1 + a2)))) by lia. split.
    + apply Z.mul_le_mono_nonneg_r; lia.
    + apply Z.mul_lt_mono_pos_r; lia.
  - rewrite <- Hval, <- fexp64. apply binary_round_spec. assumption.
Qed.

Lemma canonical_bounds (m : positive) (e : Z) :
  canonical_mantissa prec emax m e = true ->
  -1074 <= e /\ Zpos m < 2 ^ 53 /\ (-1074 < e -> 2 ^ 52 <= Zpos m).
Proof.
  unfold canonical_mantissa. rewrite fexp64. intros H. apply Z.eqb_eq in H.
  pose proof (digits2_pos_bounds m) as [Hl Hu].
  split; [lia|]. split.
  - assert (2 ^ Zpos (digits2_pos m) <= 2 ^ 53) by (apply Z.pow_le_mono_r; lia).
    lia.
  - intros He. assert (Hd : Zpos (digits2_pos m) = 53) by lia.
    rewrite Hd in Hl. exact Hl.
Qed.

Lemma scaled_lt_of_exp (m : positive) (e : Z) (m' : positive) (e' : Z) :
  canonical_mantissa prec emax m e = true ->
  canonical_mantissa prec emax m' e' = true ->
  e < e' -> scaled (Zpos m) e < scaled (Zpos m') e'.
Proof.
  intros C C' Hlt.
  apply canonical_bounds in C as (L & U & _), C' as (L' & _ & N').
  unfold scaled.
  assert (HP : 0 < 2 ^ (e + 1074)) by (apply Z.pow_pos_nonneg; lia).
  assert (N : 2 ^ 52 <= Zpos m') by (apply N'; lia).
  assert (Hp : 2 * 2 ^ (e + 1074) <= 2 ^ (e' + 1074)).
  { rewrite <- Z.pow_succ_r by lia. apply Z.pow_le_mono_r; lia. }
  change (2 ^ 53) with (2 * 2 ^ 52) in U.
  set (P := 2 ^ (e + 1074)) in *. set (P' := 2 ^ (e' + 1074)) in *.
  set (T := 2 ^ 52) in *.
  assert (0 < T) by reflexivity.
  apply Z.lt_le_trans with (2 * T * P).
  - apply Z.mul_lt_mono_pos_r; lia.
  - apply Z.le_trans with (T * P').
    + replace (2 * T * P) with (T * (2 * P)) by ring.
      apply Z.mul_le_mono_nonneg_l; lia.
    + apply Z.mul_le_mono_nonneg_r; lia.
Qed.

(** On canonical positive values the IEEE comparison is the comparison of
    the exact values. *)
Lemma SFcompare_scaled (m : positive) (e : Z) (m' : positive) (e' : Z) :
  canonical_mantissa prec emax m e = true ->
  canonical_mantissa prec emax m' e' = true ->
  SFcompare (S754_finite false m e) (S754_finite false m' e')
  = Some (scaled (Zpos m) e ?= scaled (Zpos m') e').
Proof.
  intros C C'. cbn [SFcompare]. f_equal.
  destruct (Z.compare_spec e e') as [He|Hc|Hc].
  - subst e'. unfold scaled. rewrite Pos.compare_cont_spec. cbn [Pos.switch_Eq].
    assert (HP : 0 < 2 ^ (e + 1074))
      by (apply Z.pow_pos_nonneg; apply canonical_bounds in C; lia).
    change (m ?= m')%positive with (Zpos m ?= Zpos m').
    symmetry. destruct (Z.compare_spec (Zpos m) (Zpos m')) as [Hm|Hm|Hm].
    + rewrite Hm. apply Z.compare_refl.
    + apply Z.compare_lt_iff. apply Z.mul_lt_mono_pos_r; assumption.
    + apply Z.compare_gt_iff. apply Z.mul_lt_mono_pos_r; assumption.
  - symmetry. apply Z.compare_lt_iff. apply scaled_lt_of_exp; assumption.
  - symmetry. apply Z.compare_gt_iff. apply scaled_lt_of_exp; assumption.
Qed.


(** [x < y <= z] gives [x < z], for positive finite [x] and [y]. *)
Lemma SFltb_leb_trans (x y z : spec_float) :
  valid_binary x = true -> valid_binary y = true ->
  valid_binary z = true ->
  SF_positive x = true -> SF_positive y = true ->
  SFltb x y = true -> SFleb y z = true -> SFltb x z = true.
Proof.
  destruct x as [| | |[] mx ex]; try discriminate.
  destruct y as [| | |[] my ey]; try discriminate.
  cbn [valid_binary]. unfold bounded. intros Vx Vy Vz _ _.
  apply andb_prop in Vx as [Cx _], Vy as [Cy _].
  destruct z as [[]|[]| |[] mz ez]; try discriminate; try reflexivity.
  cbn [valid_binary] in Vz. unfold bounded in Vz.
  apply andb_prop in Vz as [Cz _].
  unfold SFltb, SFleb. rewrite !SFcompare_scaled by assumption.
  destruct (Z.compare_spec (scaled (Zpos mx) ex) (scaled (Zpos my) ey));
    try discriminate.
  destruct (Z.compare_spec (scaled (Zpos my) ey) (scaled (Zpos mz) ez));
    try discriminate; intros _ _;
    destruct (Z.compare_spec (scaled (Zpos mx) ex) (scaled (Zpos mz) ez));
    try reflexivity; lia.
Qed.

(** [n <= v] and [v <= R] exclude [R < n], for a positive finite [v] and a
    result [R] that is positive finite or +infinity. *)
Lemma SFleb_trans_not_ltb (n : spec_float) (mv : positive) (ev : Z)
  (R : spec_float) (mr : positive) (er : Z) :
  valid_binary n = true ->
  canonical_mantissa prec emax mv ev = true ->
  valid_binary R = true ->
  R = (if Z.leb er (emax - prec) then S754_finite false mr er
       else S754_infinity false) ->
  scaled (Zpos mv) ev <= scaled (Zpos mr) er ->
  SFleb n (S754_finite false mv ev) = true ->
  SFltb R n = false.
Proof.
  intros Vn Cv VR -> Hle Hn.
  destruct (Z.leb er (emax - prec)).
  - cbn [valid_binary] in VR. unfold bounded in VR.
    apply andb_prop in VR as [Cr _].
    destruct n as [[]|[]| |[] mn en]; try discriminate; try reflexivity.
    cbn [valid_binary] in Vn. unfold bounded in Vn.
    apply andb_prop in Vn as [Cn _].
    unfold SFltb, SFleb in *. rewrite SFcompare_scaled in * by assumption.
    destruct (Z.compare_spec (scaled (Zpos mn) en) (scaled (Zpos mv) ev));
      try discriminate;
      destruct (Z.compare_spec (scaled (Zpos mr) er) (scaled (Zpos mn) en));
      try reflexivity; lia.
  - destruct n as [[]|[]| |[] mn en]; reflexivity.
Qed.

Lemma pow2_lt_inv (a b : Z) : 0 <= a -> 2 ^ a < 2 ^ b -> a < b.
Proof.
  intros Ha H. destruct (Z.lt_ge_cases a b) as [|Hge]; [assumption|].
  exfalso. destruct (Z.lt_ge_cases b 0) as [Hb|Hb].
  - rewrite (Z.pow_neg_r 2 b Hb) in H.
    assert (0 < 2 ^ a) by (apply Z.pow_pos_nonneg; lia). lia.
  - assert (2 ^ b <= 2 ^ a) by (apply Z.pow_le_mono_r; lia). lia.
Qed.

Lemma scaled_binade (m : positive) (e : Z) :
  -1074 <= e ->
  2 ^ (Zpos (digits2_pos m) + e - 1 + 1074) <= scaled (Zpos m) e
  < 2 ^ (Zpos (digits2_pos m) + e + 1074).
Proof.
  intros He. unfold scaled.
  pose proof (digits2_pos_bounds m) as [Hl Hu].
  assert (0 < 2 ^ (e + 1074)) by (apply Z.pow_pos_nonneg; lia).
  replace (Zpos (digits2_pos m) + e - 1 + 1074)
    with (Zpos (digits2_pos m) - 1 + (e + 1074)) by lia.
  replace (Zpos (digits2_pos m) + e + 1074)
    with (Zpos (digits2_pos m) + (e + 1074)) by lia.
  rewrite (Z.pow_add_r 2 (Zpos (digits2_pos m) - 1)) by lia.
  rewrite (Z.pow_add_r 2 (Zpos (digits2_pos m))) by lia. split.
  - apply Z.mul_le_mono_nonneg_r; lia.
  - apply Z.mul_lt_mono_pos_r; lia.
Qed.

(** Adding a positive value never rounds below the first operand. *)
Lemma SFadd_pos_ge_left (m1 : positive) (e1 : Z) (m2 : positive) (e2 : Z) :
  canonical_mantissa prec emax m1 e1 = true -> -1074 <= e2 ->
  exists mr er,
    SFadd prec emax (S754_finite false m1 e1) (S754_finite false m2 e2)
    = (if Z.leb er (emax - prec) then S754_finite false mr er
       else S754_infinity false) /\
    scaled (Zpos m1) e1 <= scaled (Zpos mr) er.
Proof.
  intros C H2.
  pose proof (canonical_bounds m1 e1 C) as (L & _ & _).
  destruct (SFadd_pos_spec m1 e1 m2 e2 L H2) as (D & [Dl Du] & R).
  destruct R as (mr & er & ER & _ & _ & Hlow & _).
  exists mr, er. split; [exact ER|].
  unfold canonical_mantissa in C. rewrite fexp64 in C. apply Z.eqb_eq in C.
  pose proof (scaled_binade m1 e1 L) as [Vl Vu].
  set (Dv := Zpos (digits2_pos m1) + e1) in *.
  assert (0 < scaled (Zpos m2) e2).
  { unfold scaled. apply Z.mul_pos_pos; [lia|]. apply Z.pow_pos_nonneg; lia. }
  assert (HDv : -1074 < Dv) by (unfold Dv; lia).
  assert (HD : Dv - 1 + 1074 < D + 1074) by (apply pow2_lt_inv; lia).
  destruct (Z.eq_dec D Dv) as [->|Hne].
  - rewrite C in Hlow. apply Hlow. unfold scaled in *. lia.
  - set (E := Z.max (D - 53) (-1074)) in *.
    apply Z.le_trans with (2 ^ (D - 1 - E) * 2 ^ (E + 1074)).
    + rewrite <- Z.pow_add_r by lia.
      replace (D - 1 - E + (E + 1074)) with (D - 1 + 1074) by lia.
      apply Z.le_trans with (2 ^ (Dv + 1074)); [lia|].
      apply Z.pow_le_mono_r; lia.
    + apply Hlow. rewrite <- Z.pow_add_r by lia.
      replace (D - 1 - E + (E + 1074)) with (D - 1 + 1074) by lia. lia.
Qed.

Ltac eval_pow2 k :=
  let c := eval vm_compute in (2 ^ k)%Z in change (2 ^ k)%Z with c in *.

(** Below 2^25 the sums with 1e-9 and with 1e-8 round to different values. *)
Lemma SFadd_gap (m : positive) (e : Z) :
  let v := S754_finite false m e in
  let a := S754_finite false 4835703278458517 (-82) in
  let b := S754_finite false 6044629098073146 (-79) in
  canonical_mantissa prec emax m e = true ->
  scaled (Zpos m) e <= scaled 4503599627370496 (-27) ->
  valid_binary (SFadd prec emax v a) = true ->
  valid_binary (SFadd prec emax v b) = true ->
  SF_positive (SFadd prec emax v a) = true /\
  SF_positive (SFadd prec emax v b) = true /\
  SFltb (SFadd prec emax v a) (SFadd prec emax v b) = true.
Proof.
  intros v a b C Hv Va Vb.
  pose proof (canonical_bounds m e C) as (L & _ & _).
  assert (S25 : scaled 4503599627370496 (-27) = 2 ^ 1099)
    by (vm_compute; reflexivity).
  assert (Sa : scaled 4835703278458517 (-82) = 4835703278458517 * 2 ^ 992)
    by reflexivity.
  assert (Sb : scaled 6044629098073146 (-79) = 6044629098073146 * 2 ^ 995)
    by reflexivity.
  assert (L82 : -1074 <= -82) by lia. assert (L79 : -1074 <= -79) by lia.
  destruct (SFadd_pos_spec m e 4835703278458517 (-82) L L82)
    as (Da & [Dal _] & Ra).
  destruct (SFadd_pos_spec m e 6044629098073146 (-79) L L79)
    as (Db & [Dbl _] & Rb).
  destruct Ra as (ma & ea & Ea & Hea & Ba & _ & _).
  destruct Rb as (mb & eb & Eb & Heb & Bb & _ & _).
  assert (HDa : Da <= 26).
  { assert (Da - 1 + 1074 < 1100); [|lia].
    destruct (Z.lt_ge_cases (Da - 1 + 1074) 0); [lia|].
    apply pow2_lt_inv; [lia|].
    rewrite Sa, S25 in *. eval_pow2 1099. eval_pow2 992. eval_pow2 1100. lia. }
  assert (HDb : Db <= 26).
  { assert (Db - 1 + 1074 < 1100); [|lia].
    destruct (Z.lt_ge_cases (Db - 1 + 1074) 0); [lia|].
    apply pow2_lt_inv; [lia|].
    rewrite Sb, S25 in *. eval_pow2 1099. eval_pow2 995. eval_pow2 1100. lia. }
  assert (Pa : 2 ^ (Z.max (Da - 53) (-1074) + 1074) <= 2 ^ 1047)
    by (apply Z.pow_le_mono_r; lia).
  assert (Pb : 2 ^ (Z.max (Db - 53) (-1074) + 1074) <= 2 ^ 1047)
    by (apply Z.pow_le_mono_r; lia).
  assert (Fa : Z.leb ea (emax - prec) = true)
    by (apply Z.leb_le; change (emax - prec) with 971; lia).
  assert (Fb : Z.leb eb (emax - prec) = true)
    by (apply Z.leb_le; change (emax - prec) with 971; lia).
  rewrite Fa in Ea. rewrite Fb in Eb.
  unfold v, a, b in *. rewrite Ea, Eb in *.
  split; [reflexivity|]. split; [reflexivity|].
  cbn [valid_binary] in Va, Vb. unfold bounded in Va, Vb.
  apply andb_prop in Va as [Va _], Vb as [Vb _].
  unfold SFltb. rewrite SFcompare_scaled by assumption.
  assert (Hlt : scaled (Zpos ma) ea < scaled (Zpos mb) eb).
  { rewrite Sa in Ba. rewrite Sb in Bb.
    set (pa := 2 ^ (Z.max (Da - 53) (-1074) + 1074)) in *.
    set (pb := 2 ^ (Z.max (Db - 53) (-1074) + 1074)) in *.
    clearbody pa pb. clear - Ba Bb Pa Pb.
    eval_pow2 992. eval_pow2 995. eval_pow2 1047. lia. }
  apply Z.compare_lt_iff in Hlt. rewrite Hlt. reflexivity.
Qed.

End RoundingSpec.

(** * Further facts about comparison and addition of doubles *)

Lemma Prim2SF_eps : Prim2SF eps = S754_finite false 4835703278458517 (-82).
Proof. reflexivity. Qed.
Lemma Prim2SF_1e8 : Prim2SF 1e-8 = S754_finite false 6044629098073146 (-79).
Proof. reflexivity. Qed.
Lemma Prim2SF_2p25 : Prim2SF 0x1p25 = S754_finite false 4503599627370496 (-27).
Proof. reflexivity. Qed.

Lemma valid_canonical (s : bool) (m : positive) (e : Z) :
  valid_binary (S754_finite s m e) = true ->
  canonical_mantissa prec emax m e = true.
Proof.
  cbn [SpecFloat.valid_binary]. unfold bounded. intros H.
  apply andb_prop in H as [C _]. exact C.
Qed.

(** ** NaN *)

Lemma SFcompare_refl (x : spec_float) :
  x <> S754_nan -> SFcompare x x = Some Eq.
Proof.
  destruct x as [[]|[]| |[] m e]; intros H; try reflexivity; try congruence;
    cbn [SFcompare]; rewrite Z.compare_refl, Pos.compare_cont_spec,
      Pos.compare_refl; reflexivity.
Qed.

Lemma is_nan_spec (x : float) : is_nan x = true <-> Prim2SF x = S754_nan.
Proof.
  unfold is_nan. rewrite eqb_spec. unfold SFeqb. split.
  - intros H. destruct (Prim2SF x) eqn:E; try reflexivity;
      rewrite SFcompare_refl in H by discriminate; discriminate.
  - intros ->. reflexivity.
Qed.

Lemma SFcompare_none (x y : spec_float) :
  SFcompare x y = None <-> x = S754_nan \/ y = S754_nan.
Proof.
  split.
  - destruct x as [[]|[]| |[] mx ex], y as [[]|[]| |[] my ey]; cbn;
      intros H; try discriminate; auto.
  - intros [-> | ->]; [reflexivity | destruct x; reflexivity].
Qed.

(** [x < y] is false exactly when [y <= x] or one of the two is a NaN. *)
Lemma ltb_false_iff (x y : float) :
  (x <? y) = false <->
  (y <=? x) = true \/ is_nan x = true \/ is_nan y = true.
Proof.
  rewrite ltb_spec, leb_spec, !is_nan_spec. unfold SFltb, SFleb.
  rewrite (SFcompare_antisym (Prim2SF x) (Prim2SF y)).
  pose proof (SFcompare_none (Prim2SF x) (Prim2SF y)) as HN.
  destruct (SFcompare (Prim2SF x) (Prim2SF y)) as [[]|]; cbn; split;
    intros H; try discriminate; auto.
  - destruct H as [H|H]; [discriminate|].
    apply HN in H. discriminate.
  - right. apply HN. reflexivity.
Qed.

Lemma ltb_nan_l (x y : float) : is_nan x = true -> (x <? y) = false.
Proof. intros H. apply ltb_false_iff. auto. Qed.

Lemma ltb_nan_r (x y : float) : is_nan y = true -> (x <? y) = false.
Proof. intros H. apply ltb_false_iff. auto. Qed.

Lemma add_nan_l (x y : float) : is_nan x = true -> is_nan (x + y) = true.
Proof. rewrite !is_nan_spec, add_spec. intros ->. reflexivity. Qed.

Lemma add_nan_r (x y : float) : is_nan y = true -> is_nan (x + y) = true.
Proof.
  rewrite !is_nan_spec, add_spec. intros ->.
  destruct (Prim2SF x); reflexivity.
Qed.

Lemma mul_nan_l (x y : float) : is_nan x = true -> is_nan (x * y) = true.
Proof. rewrite !is_nan_spec, mul_spec. intros ->. reflexivity. Qed.

Lemma mul_nan_r (x y : float) : is_nan y = true -> is_nan (x * y) = true.
Proof.
  rewrite !is_nan_spec, mul_spec. intros ->.
  destruct (Prim2SF x); reflexivity.
Qed.

(** ** Adding a value that is not negative *)

Lemma SFleb_not_ltb (x y : spec_float) : SFleb x y = true -> SFltb y x = false.
Proof.
  unfold SFleb, SFltb. rewrite (SFcompare_antisym x y).
  destruct (SFcompare x y) as [[]|]; cbn; congruence.
Qed.

Lemma SFadd_not_below (v p n : spec_float) :
  valid_binary v = true -> valid_binary p = true -> valid_binary n = true ->
  valid_binary (SFadd prec emax v p) = true ->
  SF_not_neg v = true -> SF_not_neg p = true ->
  SFleb n v = true -> SFltb (SFadd prec emax v p) n = false.
Proof.
  intros Vv Vp Vn VR Nv Np Hn.
  destruct v as [sv|[]| |[] mv ev]; try discriminate;
    destruct p as [sp|[]| |[] mp ep]; try discriminate;
    try (destruct n as [[]|[]| |[] mn en]; reflexivity);
    try (destruct sv);
    try (destruct sp);
    try (apply SFleb_not_ltb; exact Hn);
    try (destruct n as [[]|[]| |[] mn en]; try reflexivity; discriminate).
  pose proof (valid_canonical _ _ _ Vv) as Cv.
  pose proof (valid_canonical _ _ _ Vp) as Cp.
  apply canonical_bounds in Cp as (Lp & _ & _).
  destruct (SFadd_pos_ge_left mv ev mp ep Cv Lp) as (mr & er & ER & Hle).
  exact (SFleb_trans_not_ltb n mv ev _ mr er Vn Cv VR ER Hle Hn).
Qed.

Lemma add_not_below (v p n : float) :
  not_negative v -> not_negative p -> (n <=? v) = true ->
  (v + p <? n) = false.
Proof.
  rewrite !not_negative_spec, leb_spec, ltb_spec, add_spec. intros Nv Np Hn.
  apply SFadd_not_below; try assumption; try apply Prim2SF_valid.
  rewrite <- add_spec. apply Prim2SF_valid.
Qed.

(** Adding a value that is not negative never gives less. *)
Lemma add_ge_left (v p : float) :
  not_negative v -> not_negative p -> (v + p <? v) = false.
Proof.
  intros Nv Np.
  destruct (proj1 (ltb_false_iff v v) (ltb_irrefl v)) as [H|[H|H]].
  - apply add_not_below; assumption.
  - apply ltb_nan_r, H.
  - apply ltb_nan_r, H.
Qed.

Lemma eps_not_negative : not_negative eps.
Proof. reflexivity. Qed.

(** ** The sums with 1e-9 and 1e-8 below 2^25 *)

Lemma SFadd_gap_range (v : spec_float) :
  let a := S754_finite false 4835703278458517 (-82) in
  let b := S754_finite false 6044629098073146 (-79) in
  valid_binary v = true ->
  SFleb (S754_zero false) v = true ->
  SFleb v (S754_finite false 4503599627370496 (-27)) = true ->
  valid_binary (SFadd prec emax v a) = true ->
  valid_binary (SFadd prec emax v b) = true ->
  SF_positive (SFadd prec emax v a) = true /\
  SF_positive (SFadd prec emax v b) = true /\
  SFltb (SFadd prec emax v a) (SFadd prec emax v b) = true.
Proof.
  intros a b Vv H0 H25 Va Vb.
  destruct v as [s|[]| |[] m e]; try discriminate.
  - destruct s; repeat split.
  - pose proof (valid_canonical _ _ _ Vv) as C.
    apply SFadd_gap; try assumption.
    unfold SFleb in H25. rewrite SFcompare_scaled in H25;
      [|assumption|reflexivity].
    destruct (Z.compare_spec (scaled (Zpos m) e)
                (scaled 4503599627370496 (-27))); try discriminate; lia.
Qed.

Lemma add_1e8_refused (v n : float) :
  (0 <=? v) = true -> (v <=? 0x1p25) = true ->
  (v + 1e-8 <=? n) = true -> (v + eps <? n) = true.
Proof.
  rewrite !leb_spec, ltb_spec, !add_spec.
  rewrite Prim2SF_zero, Prim2SF_2p25, Prim2SF_eps, Prim2SF_1e8.
  intros H0 H25 Hn.
  pose proof (Prim2SF_valid (v + eps)) as Va.
  pose proof (Prim2SF_valid (v + 1e-8)) as Vb.
  rewrite add_spec in Va, Vb. rewrite Prim2SF_eps in Va. rewrite Prim2SF_1e8 in Vb.
  destruct (SFadd_gap_range (Prim2SF v) (Prim2SF_valid v) H0 H25 Va Vb)
    as (Pa & Pb & Hlt).
  exact (SFltb_leb_trans _ _ _ Va Vb (Prim2SF_valid n) Pa Pb Hlt Hn).
Qed.

(** * Further properties of [from_raw] and [next] *)


Lemma ltb_false_const (x k : float) :
  is_nan k = false ->
  (x <? k) = false <-> (is_nan x || (k <=? x)) = true.
Proof.
  intros Hk. rewrite ltb_false_iff, orb_true_iff, Hk.
  split; [intros [H|[H|H]] | intros [H|H]]; auto; discriminate.
Qed.

Lemma gtb_false_const (x k : float) :
  is_nan k = false ->
  (x >? k) = false <-> (is_nan x || (x <=? k)) = true.
Proof.
  intros Hk. unfold gtb. rewrite ltb_false_iff, orb_true_iff, Hk.
  split; [intros [H|[H|H]] | intros [H|H]]; auto; discriminate.
Qed.

Lemma passes_accepted (c : RiskCoord) : passes c = accepted_coord c.
Proof.
  apply eq_true_iff_eq. unfold passes, accepted_coord, r_out_of_range, w_negative.
  rewrite !andb_true_iff, !negb_true_iff, orb_false_iff.
  rewrite (ltb_false_const (r c) 0), (gtb_false_const (r c) 1),
    (ltb_false_const (w c) 0) by reflexivity.
  rewrite !orb_true_iff, !andb_true_iff. tauto.
Qed.

(** X1.  [from_raw] succeeds exactly on the non-empty sequences in which
    every coordinate has an r that is a NaN or lies in [0,1] and a w that is
    a NaN or is >= 0: the two tests of the loop, written with [<] and [>],
    let a NaN through. *)
Theorem from_raw_succeeds_iff (rc : list RiskCoord) :
  (exists s, from_raw rc = Ok s) <->
  rc <> [] /\ Forall (fun c => accepted_coord c = true) rc.
Proof.
  split.
  - intros [s H]. apply from_raw_ok_inv in H as (Hne & Hp & _).
    split; [assumption|]. revert Hp. apply Forall_impl.
    intros c. rewrite passes_accepted. auto.
  - intros [Hne Hp]. eexists. apply from_raw_passes; [assumption|].
    revert Hp. apply Forall_impl. intros c. rewrite passes_accepted. auto.
Qed.

Lemma from_raw_throw_inv (rc : list RiskCoord) (e : error) :
  from_raw rc = Throw e ->
  (rc = [] /\ e = EmptyCorridorError) \/
  (rc <> [] /\ exists c, first_failing rc = Some c /\ e = first_error c).
Proof.
  unfold from_raw. destruct rc as [|c cs].
  - intros [= <-]. left. split; reflexivity.
  - rewrite for_each_check_order.
    destruct (first_failing (c :: cs)) as [d|]; [|discriminate].
    intros [= <-]. right. split; [discriminate|]. exists d. split; reflexivity.
Qed.

Lemma first_error_kind (c : RiskCoord) :
  first_error c = RiskValueOutOfRangeError \/ first_error c = NegativeWeightError.
Proof. unfold first_error. destruct (r_out_of_range c); auto. Qed.

(** X2.  [from_raw] never throws the residual-increased error, and it
    throws the empty-corridor error only for the empty sequence. *)
Theorem from_raw_error_kinds (rc : list RiskCoord) (e : error) :
  from_raw rc = Throw e ->
  e <> ResidualIncreasedError /\ (e = EmptyCorridorError <-> rc = []).
Proof.
  intros H. apply from_raw_throw_inv in H as [[-> ->]|[Hne (c & _ & ->)]].
  - split; [discriminate | split; reflexivity].
  - destruct (first_error_kind c) as [-> | ->];
      (split; [discriminate | split; [discriminate | contradiction]]).
Qed.

Lemma from_raw_error_kinds_witness :
  from_raw coords_w_then_r = Throw NegativeWeightError /\
  NegativeWeightError <> ResidualIncreasedError.
Proof.
  assert (H : from_raw coords_w_then_r = Throw NegativeWeightError)
    by reflexivity.
  split; [exact H|].
  exact (proj1 (from_raw_error_kinds coords_w_then_r _ H)).
Defined.

(** X3.  An error of [next] tells where it comes from: the
    residual-increased error is thrown only after the new coordinates have
    passed validation and their residual is greater than the current
    residual plus 1e-9; every other error is the error [from_raw] throws on
    the new coordinates, passed on unchanged. *)
Theorem next_error_origin (this : RiskState) (rc : list RiskCoord) (e : error) :
  next this rc = Throw e ->
  (e = ResidualIncreasedError ->
   exists n, from_raw rc = Ok n /\ (V n >? V this + eps) = true) /\
  (e <> ResidualIncreasedError -> from_raw rc = Throw e).
Proof.
  unfold next. destruct (from_raw rc) as [n|e'] eqn:E; cbn [bind].
  - destruct (V n >? V this + eps) eqn:G; [|discriminate].
    intros [= <-]. split; [|congruence].
    intros _. exists n. split; [reflexivity | assumption].
  - intros [= <-]. split; [|reflexivity].
    intros ->. apply from_raw_throw_inv in E as [[_ E]|[_ (c & _ & E)]];
      [discriminate|].
    destruct (first_error_kind c) as [K|K]; rewrite K in E; discriminate.
Qed.

Lemma next_error_origin_witness :
  next state_1 coords_up = Throw ResidualIncreasedError /\
  (exists n, from_raw coords_up = Ok n /\ (V n >? V state_1 + eps) = true) /\
  next state_1 coords_w_then_r = Throw NegativeWeightError /\
  from_raw coords_w_then_r = Throw NegativeWeightError.
Proof.
  assert (H1 : next state_1 coords_up = Throw ResidualIncreasedError)
    by reflexivity.
  assert (H2 : next state_1 coords_w_then_r = Throw NegativeWeightError)
    by reflexivity.
  split; [exact H1|]. split.
  - exact (proj1 (next_error_origin _ _ _ H1) eq_refl).
  - split; [exact H2|].
    apply (proj2 (next_error_origin _ _ _ H2)). discriminate.
Defined.

(** X4.  Every state produced by [from_raw] or by a successful [next]
    holds a non-empty sequence of coordinates that all pass the two tests,
    its residual is the weighted sum of its own coordinates, and [from_raw]
    on its coordinates gives the state back. *)
Theorem reachable_invariant (s : RiskState) :
  reachable s ->
  coords s <> [] /\
  Forall (fun c => accepted_coord c = true) (coords s) /\
  V s = weighted_sum (coords s) /\
  from_raw (coords s) = Ok s.
Proof.
  intros H. apply reachable_from_raw in H.
  pose proof (from_raw_ok_inv _ _ H) as (Hne & Hp & Hs).
  split; [assumption|]. split; [|split; [rewrite Hs at 1; reflexivity | assumption]].
  revert Hp. apply Forall_impl. intros c. rewrite passes_accepted. auto.
Qed.

Lemma reachable_invariant_witness :
  reachable {| coords := coords_half; V := 0.5 |} /\
  0.5 = weighted_sum coords_half.
Proof.
  assert (H : reachable {| coords := coords_half; V := 0.5 |}).
  { apply (reach_next state_1 coords_half); [|reflexivity].
    apply (reach_from_raw (coords state_1)). reflexivity. }
  split; [exact H|].
  exact (proj1 (proj2 (proj2 (reachable_invariant _ H)))).
Defined.

(** ** Extending a sequence by one coordinate *)

Lemma weighted_sum_snoc (l : list RiskCoord) (c : RiskCoord) :
  weighted_sum (l ++ [c]) = weighted_sum l + r c * w c.
Proof.
  rewrite <- !fold_left_weighted_sum, fold_left_app. reflexivity.
Qed.

Lemma Forall_passes_snoc (l : list RiskCoord) (c : RiskCoord) :
  Forall (fun c => passes c = true) l -> passes c = true ->
  Forall (fun c => passes c = true) (l ++ [c]).
Proof.
  intros Hl Hc. apply Forall_app. split; [assumption|].
  constructor; [assumption | constructor].
Qed.

(** X5.  Extending an accepted sequence by one coordinate that passes the
    two tests gives an accepted sequence whose residual is the old residual
    plus the product r * w of the new coordinate, and that residual is not
    less than the old one. *)
Theorem from_raw_snoc (l : list RiskCoord) (c : RiskCoord) (s : RiskState) :
  from_raw l = Ok s -> accepted_coord c = true ->
  from_raw (l ++ [c]) = Ok {| coords := l ++ [c]; V := V s + r c * w c |} /\
  (V s + r c * w c <? V s) = false.
Proof.
  intros H Hc. rewrite <- passes_accepted in Hc.
  pose proof (from_raw_ok_inv _ _ H) as (Hne & Hp & Hs).
  split.
  - rewrite Hs. cbn [V]. rewrite <- weighted_sum_snoc.
    apply from_raw_passes; [destruct l; discriminate|].
    apply Forall_passes_snoc; assumption.
  - apply add_ge_left.
    + rewrite Hs. cbn [V]. rewrite <- fold_left_weighted_sum.
      apply fold_left_not_negative; [assumption | reflexivity].
    + apply passes_product_not_negative, Hc.
Qed.

Lemma from_raw_snoc_witness :
  from_raw (coords_half ++ [ {| r := 0.25; w := 3 |} ])
  = Ok {| coords := coords_half ++ [ {| r := 0.25; w := 3 |} ]; V := 1.25 |} /\
  (1.25 <? 0.5) = false.
Proof.
  assert (H : from_raw coords_half = Ok {| coords := coords_half; V := 0.5 |})
    by reflexivity.
  exact (from_raw_snoc coords_half {| r := 0.25; w := 3 |} _ H eq_refl).
Defined.

(** ** NaN and infinity in the residual *)


Lemma accumulate_nan_acc (v : float) (c : RiskCoord) :
  is_nan v = true -> is_nan (accumulate v c) = true.
Proof. apply add_nan_l. Qed.

Lemma accumulate_nan_coord (v : float) (c : RiskCoord) :
  has_nan c = true -> is_nan (accumulate v c) = true.
Proof.
  unfold has_nan. intros H. apply add_nan_r.
  apply orb_true_iff in H as [H|H]; [apply mul_nan_l | apply mul_nan_r];
    assumption.
Qed.

Lemma fold_left_nan_acc (cs : list RiskCoord) : forall v,
  is_nan v = true -> is_nan (fold_left accumulate cs v) = true.
Proof.
  induction cs as [|c cs IH]; intros v H; simpl; [assumption|].
  apply IH, accumulate_nan_acc, H.
Qed.

Lemma fold_left_nan_coord (cs : list RiskCoord) : forall v,
  Exists (fun c => has_nan c = true) cs ->
  is_nan (fold_left accumulate cs v) = true.
Proof.
  induction cs as [|c cs IH]; intros v H; [inversion H|].
  simpl. inversion H as [? ? Hc|? ? Hcs]; subst.
  - apply fold_left_nan_acc, accumulate_nan_coord, Hc.
  - apply IH, Hcs.
Qed.

(** X6.  When [from_raw] accepts a sequence that has a NaN in some
    coordinate, the residual of the state is a NaN. *)
Theorem nan_coordinate_gives_nan_residual (rc : list RiskCoord) (s : RiskState) :
  from_raw rc = Ok s ->
  Exists (fun c => has_nan c = true) rc ->
  is_nan (V s) = true.
Proof.
  intros H Hn. apply from_raw_ok_inv in H as (_ & _ & ->). cbn [V].
  rewrite <- fold_left_weighted_sum. apply fold_left_nan_coord, Hn.
Qed.

Lemma nan_coordinate_gives_nan_residual_witness :
  from_raw [ {| r := 0.5; w := 2 |}; {| r := nan; w := 1 |} ]
  = Ok {| coords := [ {| r := 0.5; w := 2 |}; {| r := nan; w := 1 |} ];
          V := nan |} /\
  is_nan nan = true.
Proof.
  assert (H : from_raw [ {| r := 0.5; w := 2 |}; {| r := nan; w := 1 |} ]
              = Ok {| coords := [ {| r := 0.5; w := 2 |}; {| r := nan; w := 1 |} ];
                      V := nan |}) by reflexivity.
  split; [exact H|].
  apply (nan_coordinate_gives_nan_residual _ _ H). right. left. reflexivity.
Defined.

(** X7.  A candidate whose residual is a NaN is accepted by [next] from
    every current state: the comparison with a NaN is false. *)
Theorem next_accepts_nan_candidate
  (this : RiskState) (rc : list RiskCoord) (n : RiskState) :
  from_raw rc = Ok n -> is_nan (V n) = true -> next this rc = Ok n.
Proof.
  intros H Hn. rewrite (next_unfold this rc n H). unfold gtb.
  rewrite (ltb_nan_r _ _ Hn). reflexivity.
Qed.

Lemma next_accepts_nan_candidate_witness :
  next {| coords := coords_half; V := 0 |} nan_coord
  = Ok {| coords := nan_coord; V := nan |}.
Proof.
  apply next_accepts_nan_candidate; reflexivity.
Defined.

Lemma ltb_infinity_l (x : float) : (infinity <? x) = false.
Proof.
  rewrite ltb_spec, Prim2SF_infinity.
  destruct (Prim2SF x) as [[]|[]| |[] m e]; reflexivity.
Qed.

(** X8.  From a current state whose residual is a NaN or +infinity,
    [next] refuses nothing: it returns what [from_raw] returns on the new
    coordinates. *)
Theorem next_unguarded_from_nan_or_infinity
  (this : RiskState) (rc : list RiskCoord) :
  is_nan (V this) = true \/ V this = infinity ->
  next this rc = from_raw rc.
Proof.
  intros H. unfold next. destruct (from_raw rc) as [n|e]; [|reflexivity].
  cbn [bind]. unfold gtb.
  destruct H as [H | ->].
  - rewrite (ltb_nan_l _ _ (add_nan_l _ eps H)). reflexivity.
  - change (infinity + eps) with infinity. rewrite ltb_infinity_l. reflexivity.
Qed.

Lemma next_unguarded_from_nan_or_infinity_witness :
  next {| coords := zero_times_inf; V := nan |} coords_up = from_raw coords_up /\
  next {| coords := [ {| r := 1; w := infinity |} ]; V := infinity |} coords_up
  = from_raw coords_up.
Proof.
  split; apply next_unguarded_from_nan_or_infinity; [left | right]; reflexivity.
Defined.

(** ** Acceptance and refusal by the residual *)

Lemma reachable_not_negative (s : RiskState) : reachable s -> not_negative (V s).
Proof.
  intros H. apply reachable_from_raw in H.
  apply from_raw_ok_inv in H as (_ & Hp & ->). cbn [V].
  rewrite <- fold_left_weighted_sum.
  apply fold_left_not_negative; [assumption | reflexivity].
Qed.

(** X9.  From a state produced by the public operations, [next] accepts
    every valid candidate whose residual is at most the current residual:
    adding the tolerance never lowers the bound. *)
Theorem next_accepts_non_increasing
  (this : RiskState) (rc : list RiskCoord) (n : RiskState) :
  reachable this -> from_raw rc = Ok n -> (V n <=? V this) = true ->
  next this rc = Ok n.
Proof.
  intros Hr H Hle. rewrite (next_unfold this rc n H). unfold gtb.
  rewrite (add_not_below (V this) eps (V n)
             (reachable_not_negative this Hr) eps_not_negative Hle).
  reflexivity.
Qed.

Lemma next_accepts_non_increasing_witness :
  reachable state_1 /\
  next state_1 coords_half = Ok {| coords := coords_half; V := 0.5 |}.
Proof.
  assert (H : reachable state_1)
    by (apply (reach_from_raw (coords state_1)); reflexivity).
  split; [exact H|].
  apply (next_accepts_non_increasing state_1 coords_half _ H); reflexivity.
Defined.

(** X10.  A state produced by the public operations accepts the
    transition to its own coordinates and that transition returns the state
    itself. *)
Theorem next_same_coords (s : RiskState) :
  reachable s -> next s (coords s) = Ok s.
Proof.
  intros Hr. rewrite (next_unfold s (coords s) s (reachable_from_raw s Hr)).
  unfold gtb.
  rewrite (add_ge_left (V s) eps (reachable_not_negative s Hr) eps_not_negative).
  reflexivity.
Qed.

Lemma next_same_coords_witness :
  reachable state_big /\ next state_big (coords state_big) = Ok state_big.
Proof.
  assert (H : reachable state_big)
    by (apply (reach_from_raw (coords state_big)); reflexivity).
  split; [exact H | exact (next_same_coords state_big H)].
Defined.

(** X11.  From a current residual between 0 and 2^25, [next] refuses
    every valid candidate whose residual is at least the current residual
    plus 1e-8: below 2^25 the doubles are dense enough to tell
    current + 1e-8 from current + 1e-9. *)
Theorem next_refuses_increase_by_1e8
  (cur : RiskState) (rc : list RiskCoord) (n : RiskState) :
  (0 <=? V cur) = true -> (V cur <=? 0x1p25) = true ->
  from_raw rc = Ok n -> (V cur + 1e-8 <=? V n) = true ->
  next cur rc = Throw ResidualIncreasedError.
Proof.
  intros H0 H25 H Hn. rewrite (next_unfold cur rc n H). unfold gtb.
  rewrite (add_1e8_refused (V cur) (V n) H0 H25 Hn). reflexivity.
Qed.

Lemma next_refuses_increase_by_1e8_witness :
  next state_1 coords_past_eps = Throw ResidualIncreasedError /\
  next state_1 coords_up = Throw ResidualIncreasedError.
Proof.
  split.
  - apply (next_refuses_increase_by_1e8 state_1 coords_past_eps
             {| coords := coords_past_eps; V := 1 + 1e-8 |}); reflexivity.
  - apply (next_refuses_increase_by_1e8 state_1 coords_up
             {| coords := coords_up; V := 1.8 |}); reflexivity.
Defined.


(** X12.  From a state produced by the public operations, along every
    finite chain of sequences that pass validation and whose residuals are
    each at most the previous residual, iterating [next] never fails, and the
    state it ends in is again one the public operations produce. *)
Theorem transitions_descending (chain : list (list RiskCoord)) :
  forall cur : RiskState,
  reachable cur -> descending (V cur) chain ->
  exists s, transitions cur chain = Ok s /\ reachable s.
Proof.
  induction chain as [|rc rest IH]; intros cur Hr H; simpl.
  - exists cur. split; [reflexivity | assumption].
  - destruct H as (n & Hn & Hle & Hrest).
    assert (Hnext : next cur rc = Ok n).
    { rewrite (next_unfold cur rc n Hn). unfold gtb.
      rewrite (add_not_below (V cur) eps (V n)
                 (reachable_not_negative cur Hr) eps_not_negative Hle).
      reflexivity. }
    rewrite Hnext. simpl. apply IH; [|assumption].
    exact (reach_next cur rc n Hr Hnext).
Qed.

Lemma transitions_descending_witness :
  reachable state_1 /\ descending (V state_1) chain_down /\
  exists s, transitions state_1 chain_down = Ok s /\ reachable s.
Proof.
  assert (Hr : reachable state_1)
    by (apply (reach_from_raw (coords state_1)); reflexivity).
  assert (H : descending (V state_1) chain_down).
  { simpl. repeat (eexists; split; [reflexivity|]; split; [reflexivity|]).
    exact I. }
  split; [exact Hr|]. split; [exact H|].
  exact (transitions_descending chain_down state_1 Hr H).
Defined.

(** ** Zero risk *)

Lemma eqb_zero_spec (x : float) : (x =? 0) = SF_is_zero (Prim2SF x).
Proof.
  rewrite eqb_spec, Prim2SF_zero.
  destruct (Prim2SF x) as [[]|[]| |[] m e]; reflexivity.
Qed.

Lemma SFmul_zero (x y : spec_float) :
  SF_is_zero x = true -> SF_finite y = true ->
  SF_is_zero (SFmul prec emax x y) = true.
Proof.
  destruct x as [sx| | |]; try discriminate.
  destruct y as [sy| | |sy my ey]; try discriminate; reflexivity.
Qed.

Lemma SFadd_zero (x y : spec_float) :
  SF_is_zero x = true -> SF_is_zero y = true ->
  SF_is_zero (SFadd prec emax x y) = true.
Proof.
  destruct x as [[]| | |]; try discriminate;
    destruct y as [[]| | |]; try discriminate; reflexivity.
Qed.

Lemma zero_risk_passes (c : RiskCoord) : zero_risk c = true -> passes c = true.
Proof.
  unfold zero_risk. intros H. apply andb_prop in H as [H _].
  apply andb_prop in H as [Hr Hw]. apply valid_coord_passes.
  unfold valid_coord. rewrite Hw, andb_true_r.
  rewrite eqb_zero_spec in Hr. rewrite leb_zero_spec, leb_spec, Prim2SF_one.
  destruct (Prim2SF (r c)) as [[]| | |]; try discriminate; reflexivity.
Qed.

Lemma zero_risk_product (c : RiskCoord) :
  zero_risk c = true -> (r c * w c =? 0) = true.
Proof.
  unfold zero_risk. intros H. apply andb_prop in H as [H Hf].
  apply andb_prop in H as [Hr Hw].
  rewrite eqb_zero_spec in *. rewrite mul_spec. apply SFmul_zero; [assumption|].
  rewrite leb_zero_spec in Hw. rewrite ltb_spec, Prim2SF_infinity in Hf.
  apply SFltb_inf_finite; assumption.
Qed.

Lemma fold_left_zero (cs : list RiskCoord) : forall v,
  Forall (fun c => zero_risk c = true) cs ->
  (v =? 0) = true -> (fold_left accumulate cs v =? 0) = true.
Proof.
  induction cs as [|c cs IH]; intros v H Hv; simpl; [assumption|].
  inversion H as [|? ? Hc Hcs]; subst. apply IH; [assumption|].
  unfold accumulate. pose proof (zero_risk_product c Hc) as Hp.
  rewrite eqb_zero_spec in *. rewrite add_spec. apply SFadd_zero; assumption.
Qed.

Lemma zero_leb_not_negative (z v : float) :
  (z =? 0) = true -> not_negative v ->
  (z <=? v) = true \/ is_nan v = true.
Proof.
  rewrite eqb_zero_spec, not_negative_spec, leb_spec, is_nan_spec.
  destruct (Prim2SF z) as [sz| | |]; try discriminate. intros _.
  destruct (Prim2SF v) as [[]|[]| |[] m e]; intros H; try discriminate; auto.
Qed.

(** X13.  From a state produced by the public operations, [next] accepts
    every non-empty sequence of zero-risk coordinates (r zero, w finite and
    >= 0), and the residual of the returned state is zero. *)
Theorem next_accepts_zero_risk (this : RiskState) (rc : list RiskCoord) :
  reachable this -> rc <> [] ->
  Forall (fun c => zero_risk c = true) rc ->
  next this rc = Ok {| coords := rc; V := weighted_sum rc |} /\
  (weighted_sum rc =? 0) = true.
Proof.
  intros Hr Hne Hz.
  assert (Hp : Forall (fun c => passes c = true) rc)
    by (revert Hz; apply Forall_impl; exact zero_risk_passes).
  assert (H0 : (weighted_sum rc =? 0) = true).
  { rewrite <- fold_left_weighted_sum. apply fold_left_zero; [assumption|].
    reflexivity. }
  split; [|assumption].
  rewrite (next_unfold this rc _ (from_raw_passes rc Hne Hp)). cbn [V].
  unfold gtb.
  destruct (zero_leb_not_negative _ _ H0 (reachable_not_negative this Hr))
    as [Hle|Hnan].
  - rewrite (add_not_below (V this) eps _
               (reachable_not_negative this Hr) eps_not_negative Hle).
    reflexivity.
  - rewrite (ltb_nan_l _ _ (add_nan_l _ eps Hnan)). reflexivity.
Qed.

Lemma next_accepts_zero_risk_witness :
  reachable state_1 /\
  next state_1 [ {| r := 0; w := 7 |}; {| r := 0; w := 2 |} ]
  = Ok {| coords := [ {| r := 0; w := 7 |}; {| r := 0; w := 2 |} ]; V := 0 |}.
Proof.
  assert (H : reachable state_1)
    by (apply (reach_from_raw (coords state_1)); reflexivity).
  split; [exact H|].
  refine (proj1 (next_accepts_zero_risk state_1
                   [ {| r := 0; w := 7 |}; {| r := 0; w := 2 |} ] H _ _)).
  - discriminate.
  - repeat constructor.
Defined.

(** * The messages

    The four messages thrown by the source are pairwise different: the
    message determines the kind of error. *)
Lemma what_injective (e1 e2 : error) : what e1 = what e2 -> e1 = e2.
Proof. destruct e1, e2; intros H; try reflexivity; discriminate H. Qed.

